(** * The actor state tree (package [state]): a shallow embedding

    The Go source keeps an in-memory HAMT root, a handle to a content
    addressed store, a write cache of actor records keyed by address, a
    snapshot reference and an LRU cache of resolved addresses.  Every
    method mutates the receiver and may return an error, so each method is
    a computation in a state-and-error monad over [StateTree]: the state
    reached so far is kept when an error is returned, exactly as the
    mutated receiver is in Go.

    Actor records are handled through pointers ([*types.Actor]) and the
    source compares and shares them, so the embedding carries a heap of
    actor records and the cache maps addresses to locations.

    The trie, the store and the init actor's table are collaborators that
    can fail.  The store carries a script that decides which of the calls
    reaching it fail, and every collaborator call is logged with its
    outcome, so that statements can speak of the calls a method made. *)

From stdpp Require Import gmap strings list fin_maps.

(** ** Errors *)

(** Sentinel errors are constructors; [Errorf msg err] is
    [xerrors.Errorf("msg: %w", err)], which keeps [err] reachable through
    [Unwrap]. *)
Inductive error : Type :=
| ErrNotFound                      (* hamt.ErrNotFound *)
| ErrActorNotFound                 (* types.ErrActorNotFound *)
| ErrUndefinedAddress              (* fmt.Errorf("GetActor called on undefined address") *)
| ErrStore (msg : string)          (* any other failure reported by the trie or the store *)
| ErrCaller (msg : string)         (* an error returned by a caller-supplied function *)
| ErrCallDepth                     (* the embedding's recursion budget ran out *)
| Errorf (msg : string) (err : error).

#[global] Instance error_eq_dec : EqDecision error.
Proof. solve_decision. Defined.

(** [xerrors.Is]: [target] is [err] or is reachable from it by unwrapping. *)
Fixpoint Is (err target : error) : bool :=
  if decide (err = target) then true
  else match err with
       | Errorf _ inner => Is inner target
       | _ => false
       end.

Definition Result (A : Type) : Type := (error + A)%type.

(** ** Addresses (package [address]) *)

(** Modelled from the spec: the address package is not among the sources.
    An address is an immutable, comparable identifier with a protocol tag;
    one tag marks the canonical numeric-ID form, the others mark forms
    that need resolution; the zero value is the undefined address. *)
Module address.

Inductive protocol : Type := ID | SECP256K1 | Actor | BLS | Unknown.

(** A protocol tag with a payload; [Undef] is the zero value of the Go
    struct. *)
Inductive Address : Type :=
| Undef
| NewIDAddress (id : N)
| NewSecp256k1Address (payload : N)
| NewActorAddress (payload : N)
| NewBLSAddress (payload : N).

Definition Protocol (a : Address) : protocol :=
  match a with
  | Undef => Unknown
  | NewIDAddress _ => ID
  | NewSecp256k1Address _ => SECP256K1
  | NewActorAddress _ => Actor
  | NewBLSAddress _ => BLS
  end.

(** [addr.Bytes()]: the protocol byte followed by the payload; the
    undefined address has no bytes. *)
Definition Bytes (a : Address) : list N :=
  match a with
  | Undef => []
  | NewIDAddress n => [0%N; n]
  | NewSecp256k1Address h => [1%N; h]
  | NewActorAddress h => [2%N; h]
  | NewBLSAddress h => [3%N; h]
  end.

#[global] Instance protocol_eq_dec : EqDecision protocol.
Proof. solve_decision. Defined.

#[global] Instance Address_eq_dec : EqDecision Address.
Proof. solve_decision. Defined.

Definition of_Bytes (l : list N) : option Address :=
  match l with
  | [] => Some Undef
  | [0%N; n] => Some (NewIDAddress n)
  | [1%N; h] => Some (NewSecp256k1Address h)
  | [2%N; h] => Some (NewActorAddress h)
  | [3%N; h] => Some (NewBLSAddress h)
  | _ => None
  end.

Lemma of_Bytes_Bytes a : of_Bytes (Bytes a) = Some a.
Proof. by destruct a. Qed.

#[global] Instance Address_countable : Countable Address :=
  inj_countable Bytes of_Bytes of_Bytes_Bytes.

#[global] Instance Bytes_inj : Inj (=) (=) Bytes.
Proof.
  intros a b Hab. apply (f_equal of_Bytes) in Hab.
  rewrite !of_Bytes_Bytes in Hab. congruence.
Qed.

End address.

Abbreviation Address := address.Address.
Abbreviation Key := (list N).

(** ** Content identifiers (package [cid]) *)

Module cid.

(** A reference to a block of the store; [Undef] is the zero [cid.Cid]. *)
Inductive Cid : Type := Undef | At (i : nat).

#[global] Instance Cid_eq_dec : EqDecision Cid.
Proof. solve_decision. Defined.

End cid.

Abbreviation Cid := cid.Cid.

(** ** Actor records (package [types]) *)

Record Actor : Type := mkActor {
  Code : Cid;
  Head : Cid;
  Nonce : N;        (* uint64 *)
  Balance : Z       (* BigInt *)
}.

#[global] Instance Actor_eq_dec : EqDecision Actor.
Proof. solve_decision. Defined.

(** The zero value of [types.Actor], what [var act types.Actor] holds. *)
#[global] Instance Actor_inhabited : Inhabited Actor :=
  populate (mkActor cid.Undef cid.Undef 0%N 0%Z).

Definition with_Head (h : Cid) (a : Actor) : Actor :=
  mkActor (Code a) h (Nonce a) (Balance a).

Definition with_Nonce (n : N) (a : Actor) : Actor :=
  mkActor (Code a) (Head a) n (Balance a).

(** Modelled from the spec: [actors.InitAddress] is not among the
    sources.  It is the well-known address of the init actor, always in
    canonical form; ID address 0 is taken for it. *)
Definition InitAddress : Address := address.NewIDAddress 0.

(** ** The LRU of resolved addresses (package [simplelru]) *)

(** Modelled from the spec: a mapping of bounded capacity whose eviction
    policy is least-recently-used. *)
Module lru.

(** The eviction list, most recently used entry first. *)
Abbreviation LRU := (list (Address * Address)).

Fixpoint lookup (key : Address) (c : LRU) : option Address :=
  match c with
  | [] => None
  | (k, v) :: c' => if decide (key = k) then Some v else lookup key c'
  end.

Fixpoint remove (key : Address) (c : LRU) : LRU :=
  match c with
  | [] => []
  | (k, v) :: c' => if decide (key = k) then remove key c' else (k, v) :: remove key c'
  end.

(** [NewLRU(size, nil)] refuses a size that is not positive. *)
Definition NewLRU (size : Z) : Result LRU :=
  if decide (size <= 0)%Z then inl (ErrStore "Must provide a positive size")
  else inr [].

(** [c.Get(key)]: a hit moves the entry to the front. *)
Definition Get (key : Address) (c : LRU) : option Address * LRU :=
  match lookup key c with
  | Some v => (Some v, (key, v) :: remove key c)
  | None => (None, c)
  end.

(** [c.Add(key, value)]: an existing entry is updated and moved to the
    front; a new one is pushed at the front and the oldest entry is
    dropped when the list grows beyond [size]. *)
Definition Add (size : nat) (key value : Address) (c : LRU) : LRU :=
  match lookup key c with
  | Some _ => (key, value) :: remove key c
  | None => take size ((key, value) :: c)
  end.

Definition Purge (c : LRU) : LRU := [].

End lru.

(** Both constructors build the cache with [lru.NewLRU(1024, nil)]. *)
Definition idCacheSize : nat := 1024.

(** ** The init actor's state (package [actors]) *)

(** Modelled from the spec: [actors.InitActorState] is not among the
    sources.  The spec describes it as a resolution table from addresses
    to canonical IDs together with an allocator for the next canonical ID;
    a lookup fails with NotFound for an address that was never registered
    and an allocation fails for an address that already is. *)
Record InitActorState : Type := mkInitActorState {
  AddressMap : gmap Key N;
  NextID : N          (* uint64 *)
}.

#[global] Instance InitActorState_eq_dec : EqDecision InitActorState.
Proof. solve_decision. Defined.

Definition uint64_succ (n : N) : N := ((n + 1) mod 2 ^ 64)%N.

Module ias.

(** Modelled from the spec: the table lookup behind [ias.Lookup]. *)
Definition Lookup (s : InitActorState) (addr : Address) : Result Address :=
  match AddressMap s !! address.Bytes addr with
  | Some id => inr (address.NewIDAddress id)
  | None => inl ErrNotFound
  end.

(** Modelled from the spec: the allocation behind [ias.AddActor]; it
    returns the fresh ID address and the updated state. *)
Definition AddActor (s : InitActorState) (addr : Address)
  : Result (Address * InitActorState) :=
  match AddressMap s !! address.Bytes addr with
  | Some _ => inl (ErrStore "address already registered")
  | None =>
      inr (address.NewIDAddress (NextID s),
           mkInitActorState (<[address.Bytes addr := NextID s]> (AddressMap s))
                            (uint64_succ (NextID s)))
  end.

End ias.

(** ** The trie and the store (package [hamt]) *)

(** Modelled from the spec: the HAMT and its block store are external
    collaborators.  The contract the spec gives is [set]/[find] by byte
    key on a trie handle, [flush], [persist] returning a root reference
    derived from the content, [load] of a root reference, and generic
    [get]/[put] of records.  A trie is its finite map from keys to actor
    records (values are serialised on [set], so the trie holds copies); the
    store is the sequence of distinct blocks written so far, a block's
    reference being its position, so that putting equal content again
    yields the same reference and nothing written is ever altered. *)
Abbreviation Node := (gmap Key Actor).

Inductive Block : Type :=
| NodeBlock (n : Node)
| InitBlock (s : InitActorState).

#[global] Instance Block_eq_dec : EqDecision Block.
Proof. solve_decision. Defined.

Module store.

Definition get (c : Cid) (blocks : list Block) : option Block :=
  match c with
  | cid.Undef => None
  | cid.At i => blocks !! i
  end.

Definition put (b : Block) (blocks : list Block) : Cid * list Block :=
  match list_find (λ b', b' = b) blocks with
  | Some (i, _) => (cid.At i, blocks)
  | None => (cid.At (length blocks), blocks ++ [b])
  end.

End store.

(** The store handle: its blocks, and the storage layer's script of
    outcomes.  Each call that reaches the storage layer consumes one entry
    of the script: [Some msg] makes that call fail with an I/O error,
    [None] (or an exhausted script) lets it proceed. *)
Record CborIpldStore : Type := mkStore {
  blocks : list Block;
  faults : list (option string)
}.

(** ** Calls to collaborators, as observed *)

Inductive Call : Type :=
| IdCacheGet (addr : Address)
| IdCacheAdd (addr id : Address)
| IdCachePurge
| NodeFind (k : Key)
| NodeSet (k : Key)
| NodeFlush
| LoadNode (c : Cid)
| StoreGet (c : Cid)
| StorePut
| IasLookup (addr : Address)
| IasAddActor (addr : Address).

(** A call together with the error it returned, if any. *)
Abbreviation Event := (Call * option error)%type.

Definition touches_idCache (c : Call) : bool :=
  match c with
  | IdCacheGet _ | IdCacheAdd _ _ | IdCachePurge => true
  | _ => false
  end.

Definition touches_trie (c : Call) : bool :=
  match c with
  | NodeFind _ | NodeSet _ | NodeFlush | LoadNode _ => true
  | _ => false
  end.

(** ** The state tree *)

Abbreviation loc := N.

(** The five fields of the Go struct, the heap holding the actor records
    the cache points to, and the log of collaborator calls (most recent
    first). *)
Record StateTree : Type := mkStateTree {
  root : Node;
  Store : CborIpldStore;
  actorcache : gmap Address loc;
  snapshot : Cid;
  idCache : lru.LRU;
  heap : gmap loc Actor;
  trace : list Event
}.

Definition set_root (n : Node) (st : StateTree) : StateTree :=
  mkStateTree n (Store st) (actorcache st) (snapshot st) (idCache st) (heap st) (trace st).
Definition set_Store (s : CborIpldStore) (st : StateTree) : StateTree :=
  mkStateTree (root st) s (actorcache st) (snapshot st) (idCache st) (heap st) (trace st).
Definition set_actorcache (c : gmap Address loc) (st : StateTree) : StateTree :=
  mkStateTree (root st) (Store st) c (snapshot st) (idCache st) (heap st) (trace st).
Definition set_snapshot (c : Cid) (st : StateTree) : StateTree :=
  mkStateTree (root st) (Store st) (actorcache st) c (idCache st) (heap st) (trace st).
Definition set_idCache (c : lru.LRU) (st : StateTree) : StateTree :=
  mkStateTree (root st) (Store st) (actorcache st) (snapshot st) c (heap st) (trace st).
Definition set_heap (h : gmap loc Actor) (st : StateTree) : StateTree :=
  mkStateTree (root st) (Store st) (actorcache st) (snapshot st) (idCache st) h (trace st).
Definition log (ev : Event) (st : StateTree) : StateTree :=
  mkStateTree (root st) (Store st) (actorcache st) (snapshot st) (idCache st) (heap st)
              (ev :: trace st).

(** ** The monad of methods *)

Definition M (A : Type) : Type := StateTree → Result A * StateTree.

Definition ret {A} (a : A) : M A := λ st, (inr a, st).
Definition fail {A} (e : error) : M A := λ st, (inl e, st).
Definition bind {A B} (m : M A) (k : A → M B) : M B :=
  λ st, match m st with
        | (inr a, st') => k a st'
        | (inl e, st') => (inl e, st')
        end.

(** [v, err := m] followed by an inspection of [err]. *)
Definition try {A} (m : M A) : M (Result A) :=
  λ st, let (r, st') := m st in (inr r, st').

(** [if err != nil { return xerrors.Errorf("msg: %w", err) }]. *)
Definition wrapping {A} (msg : string) (m : M A) : M A :=
  λ st, match m st with
        | (inl e, st') => (inl (Errorf msg e), st')
        | r => r
        end.

Definition gets {A} (f : StateTree → A) : M A := λ st, (inr (f st), st).
Definition modify (f : StateTree → StateTree) : M unit := λ st, (inr tt, f st).

Notation "'do' x <- m ;; k" := (bind m (λ x, k))
  (at level 10, x name, m at level 99, k at level 200,
   format "'[v' 'do'  x  <-  m  ;;  '/' k ']'").

(** ** Collaborator calls *)

Definition take_fault (st : StateTree) : option string * StateTree :=
  match faults (Store st) with
  | [] => (None, st)
  | f :: fs => (f, set_Store (mkStore (blocks (Store st)) fs) st)
  end.

Definition err_of {A} (r : Result A) : option error :=
  match r with
  | inl e => Some e
  | inr _ => None
  end.

(** A call that reaches the storage layer: it fails with the scripted
    I/O error if there is one, runs otherwise, and is logged with its
    outcome. *)
Definition storage_call {A} (c : Call) (op : StateTree → Result A * StateTree) : M A :=
  λ st, match take_fault st with
        | (Some msg, st1) => (inl (ErrStore msg), log (c, Some (ErrStore msg)) st1)
        | (None, st1) => let (r, st2) := op st1 in (r, log (c, err_of r) st2)
        end.

(** A call served from memory: it cannot fail, and is logged. *)
Definition memory_call {A} (c : Call) (op : StateTree → A * StateTree) : M A :=
  λ st, let (a, st1) := op st in (inr a, log (c, None) st1).

(** [st.idCache.Get(addr)], [st.idCache.Add(addr, id)], [st.idCache.Purge()]. *)
Definition idCache_Get (addr : Address) : M (option Address) :=
  memory_call (IdCacheGet addr)
    (λ st, let (r, c) := lru.Get addr (idCache st) in (r, set_idCache c st)).

Definition idCache_Add (addr id : Address) : M unit :=
  memory_call (IdCacheAdd addr id)
    (λ st, (tt, set_idCache (lru.Add idCacheSize addr id (idCache st)) st)).

Definition idCache_Purge : M unit :=
  memory_call IdCachePurge (λ st, (tt, set_idCache (lru.Purge (idCache st)) st)).

(** [st.root.Find(ctx, k, &act)], [st.root.Set(ctx, k, act)], [st.root.Flush(ctx)]. *)
Definition root_Find (k : Key) : M Actor :=
  storage_call (NodeFind k)
    (λ st, (match root st !! k with
            | Some a => inr a
            | None => inl ErrNotFound
            end, st)).

Definition root_Set (k : Key) (a : Actor) : M unit :=
  storage_call (NodeSet k) (λ st, (inr tt, set_root (<[k := a]> (root st)) st)).

Definition root_Flush : M unit :=
  storage_call NodeFlush (λ st, (inr tt, st)).

(** [hamt.LoadNode(ctx, st.Store, c)]. *)
Definition hamt_LoadNode (c : Cid) : M Node :=
  storage_call (LoadNode c)
    (λ st, (match store.get c (blocks (Store st)) with
            | Some (NodeBlock n) => inr n
            | Some _ => inl (ErrStore "cbor: unexpected block")
            | None => inl (ErrStore "blockstore: block not found")
            end, st)).

(** [st.Store.Get(ctx, c, &ias)] and [st.Store.Put(ctx, v)]. *)
Definition Store_Get (c : Cid) : M InitActorState :=
  storage_call (StoreGet c)
    (λ st, (match store.get c (blocks (Store st)) with
            | Some (InitBlock s) => inr s
            | Some _ => inl (ErrStore "cbor: unexpected block")
            | None => inl (ErrStore "blockstore: block not found")
            end, st)).

Definition Store_Put (b : Block) : M Cid :=
  storage_call StorePut
    (λ st, let (c, bs) := store.put b (blocks (Store st)) in
           (inr c, set_Store (mkStore bs (faults (Store st))) st)).

(** [ias.Lookup(st.Store, addr)] and [ias.AddActor(st.Store, addr)]. *)
Definition ias_Lookup (s : InitActorState) (addr : Address) : M Address :=
  storage_call (IasLookup addr) (λ st, (ias.Lookup s addr, st)).

Definition ias_AddActor (s : InitActorState) (addr : Address)
  : M (Address * InitActorState) :=
  storage_call (IasAddActor addr) (λ st, (ias.AddActor s addr, st)).

(** ** Heap accesses *)

(** [&types.Actor{...}]: a record at a location not in use. *)
Definition new_Actor (a : Actor) : M loc :=
  λ st, let l := fresh (dom (heap st)) in (inr l, set_heap (<[l := a]> (heap st)) st).

(** [*act] and [*act = a].  Locations only come from [new_Actor]; one
    outside the heap reads as the zero record. *)
Definition load (act : loc) : M Actor := gets (λ st, heap st !!! act).
Definition store_Actor (act : loc) (a : Actor) : M unit :=
  modify (λ st, set_heap (<[act := a]> (heap st)) st).

(** ** Constructors *)

Definition NewStateTree (cst : CborIpldStore) : Result StateTree :=
  match lru.NewLRU (Z.of_nat idCacheSize) with
  | inl e => inl (Errorf "creating cache" e)
  | inr c => inr (mkStateTree ∅ cst ∅ cid.Undef c ∅ [])
  end.

Definition LoadStateTree (cst : CborIpldStore) (c : Cid) : Result StateTree :=
  match hamt_LoadNode c (mkStateTree ∅ cst ∅ cid.Undef [] ∅ []) with
  | (inl e, _) => inl e
  | (inr nd, st) =>
      match lru.NewLRU (Z.of_nat idCacheSize) with
      | inl e => inl (Errorf "creating cache" e)
      | inr ic => inr (set_idCache ic (set_root nd st))
      end
  end.

(** ** Resolution and lookup *)

(** [LookupID] and [GetActor] call each other.  Each body is written
    against the other method; the knot is tied below. *)
Definition LookupID_body (GetActor : Address → M loc) (addr : Address) : M Address :=
  do hit <- idCache_Get addr ;;
  match hit with
  | Some id => ret id
  | None =>
      if decide (address.Protocol addr = address.ID) then ret addr
      else
        do act <- wrapping "getting init actor" (GetActor InitAddress) ;;
        do a <- load act ;;
        do s <- wrapping "loading init actor state" (Store_Get (Head a)) ;;
        do id <- wrapping "resolving id addr" (ias_Lookup s addr) ;;
        do _ <- idCache_Add addr id ;;
        ret id
  end.

(** [var act types.Actor] escapes through [&act]; the record is allocated
    here once [Find] has filled it, since on failure nothing refers to
    it. *)
Definition GetActor_body (LookupID : Address → M Address) (addr : Address) : M loc :=
  if decide (addr = address.Undef) then fail ErrUndefinedAddress
  else
    do r <- try (LookupID addr) ;;
    match r with
    | inl err =>
        if Is err ErrNotFound
        then fail (Errorf "resolution lookup failed" ErrActorNotFound)
        else fail (Errorf "address resolution" err)
    | inr iaddr =>
        do cached <- gets (λ st, actorcache st !! iaddr) ;;
        match cached with
        | Some cact => ret cact
        | None =>
            do r <- try (root_Find (address.Bytes iaddr)) ;;
            match r with
            | inl err =>
                if decide (err = ErrNotFound) then fail ErrActorNotFound
                else fail (Errorf "hamt find failed" err)
            | inr a =>
                do act <- new_Actor a ;;
                do _ <- modify (λ st, set_actorcache (<[iaddr := act]> (actorcache st)) st) ;;
                ret act
            end
        end
    end.

(** The recursion is bounded: resolving the init actor's own address never
    needs the init actor, so two levels of [LookupID] are all the source
    can go through (see [LookupID_depth_enough] and [LookupID_unfold]). *)
Fixpoint LookupID_depth (n : nat) : Address → M Address :=
  match n with
  | O => λ _, fail ErrCallDepth
  | S n' => LookupID_body (GetActor_body (LookupID_depth n'))
  end.

Definition LookupID : Address → M Address := LookupID_depth 2.
Definition GetActor : Address → M loc := GetActor_body LookupID.

(** ** Updates *)

(** [act == cact] compares the two pointers; [root.Set] serialises the
    record the pointer refers to at the time of the call. *)
Definition SetActor (addr : Address) (act : loc) : M unit :=
  do iaddr <- wrapping "ID lookup failed" (LookupID addr) ;;
  do cached <- gets (λ st, actorcache st !! iaddr) ;;
  if decide (cached = Some act) then ret tt
  else
    do _ <- modify (λ st, set_actorcache (<[iaddr := act]> (actorcache st)) st) ;;
    do a <- load act ;;
    root_Set (address.Bytes iaddr) a.

(** The loop of [Flush] over the cache entries, in the order [order]. *)
Fixpoint write_entries (order : list (Address * loc)) : M unit :=
  match order with
  | [] => ret tt
  | (addr, act) :: rest =>
      do a <- load act ;;
      do _ <- root_Set (address.Bytes addr) a ;;
      write_entries rest
  end.

(** [Flush], given the order in which [range st.actorcache] yields the
    entries (Go leaves that order unspecified). *)
Definition Flush_range (order : list (Address * loc)) : M Cid :=
  do _ <- write_entries order ;;
  do _ <- modify (set_actorcache ∅) ;;
  do _ <- root_Flush ;;
  do nd <- gets root ;;
  Store_Put (NodeBlock nd).

Definition Flush : M Cid :=
  λ st, Flush_range (map_to_list (actorcache st)) st.

Definition Snapshot_range (order : list (Address * loc)) : M unit :=
  do ss <- Flush_range order ;;
  modify (set_snapshot ss).

Definition Snapshot : M unit :=
  λ st, Snapshot_range (map_to_list (actorcache st)) st.

Definition Revert : M unit :=
  do c <- gets snapshot ;;
  do nd <- hamt_LoadNode c ;;
  do _ <- idCache_Purge ;;
  modify (set_root nd).

(** [f] receives the pointer and may write through it; what a Go closure
    would assign to a captured variable is returned as [f]'s value. *)
Definition MutateActor {A} (addr : Address) (f : loc → M A) : M A :=
  do act <- GetActor addr ;;
  do x <- f act ;;
  do _ <- SetActor addr act ;;
  ret x.

(** The closure [RegisterNewAddress] hands to [MutateActor]; its value is
    what the closure assigns to [out]. *)
Definition RegisterNewAddress_func (addr : Address) (initact : loc) : M Address :=
  do a <- load initact ;;
  do s <- Store_Get (Head a) ;;
  do r <- ias_AddActor s addr ;;
  do ncid <- Store_Put (InitBlock r.2) ;;
  do a' <- load initact ;;
  do _ <- store_Actor initact (with_Head ncid a') ;;
  ret r.1.

Definition RegisterNewAddress (addr : Address) (act : loc) : M Address :=
  do out <- MutateActor InitAddress (RegisterNewAddress_func addr) ;;
  do _ <- SetActor out act ;;
  ret out.

(** * Vocabulary of the statements *)

(** ** Observations *)

(** The state a computation ends in, and its result. *)
Definition exec {A} (m : M A) (st : StateTree) : StateTree := (m st).2.

Definition result {A} (m : M A) (st : StateTree) : Result A := (m st).1.

(** The blocks the store holds. *)
Definition stored (st : StateTree) : list Block := blocks (Store st).

(** [GetActor] followed by a read through the pointer it returns. *)
Definition read (addr : Address) : M Actor :=
  do act <- GetActor addr ;; load act.

(** No storage failure is scripted. *)
Definition fault_free (st : StateTree) : Prop :=
  Forall (λ f, f = None) (faults (Store st)).

(** The identifier cache holds no key in ID form. *)
Definition canonical_free (c : lru.LRU) : bool :=
  forallb (λ kv, bool_decide (address.Protocol kv.1 ≠ address.ID)) c.

(** ** Relations between the state before and after a computation *)

Definition preserves {A} (R : relation StateTree) (m : M A) : Prop :=
  ∀ st r st', m st = (r, st') → R st st'.

(** A relation that is reflexive, transitive and blind to logging and to
    the consumption of the fault script is preserved by sequencing; it
    then only has to be checked on the primitive steps. *)
Class Frame (R : relation StateTree) : Prop := {
  frame_refl :: Reflexive R;
  frame_trans :: Transitive R;
  frame_log ev st : R st (log ev st);
  frame_fault st : R st (take_fault st).2
}.

(** What a relation has to be blind to for the steps that write each
    field of the state. *)
Class FrameIdCache (R : relation StateTree) : Prop := {
  frame_Get addr st : R st (set_idCache (lru.Get addr (idCache st)).2 st);
  frame_Add addr id st :
    address.Protocol addr ≠ address.ID →
    R st (set_idCache (lru.Add idCacheSize addr id (idCache st)) st)
}.

Class FramePurge (R : relation StateTree) : Prop :=
  frame_Purge st : R st (set_idCache [] st).

Class FrameHeap (R : relation StateTree) : Prop :=
  frame_heap h st : R st (set_heap h st).

Class FrameActorcache (R : relation StateTree) : Prop :=
  frame_actorcache c st : R st (set_actorcache c st).

Class FrameRoot (R : relation StateTree) : Prop :=
  frame_root n st : R st (set_root n st).

Class FrameBlocks (R : relation StateTree) : Prop :=
  frame_blocks b st :
    R st (set_Store (mkStore (store.put b (blocks (Store st))).2 (faults (Store st))) st).

Class FrameSnapshot (R : relation StateTree) : Prop :=
  frame_snapshot c st : R st (set_snapshot c st).

(** The component [f] of the state is what it was. *)
Definition keeps {X} (f : StateTree → X) : relation StateTree :=
  λ st st', f st' = f st.

Definition rel_and (R1 R2 : relation StateTree) : relation StateTree :=
  λ st st', R1 st st' ∧ R2 st st'.

(** An identifier cache free of ID-form keys stays so. *)
Definition canonical_kept : relation StateTree :=
  λ st st', canonical_free (idCache st) = true → canonical_free (idCache st') = true.

(** Every reference that resolved still resolves, to the same block. *)
Definition store_grows : relation StateTree :=
  λ st st', ∀ c b, store.get c (stored st) = Some b → store.get c (stored st') = Some b.

(** The log only grows. *)
Definition trace_grows : relation StateTree :=
  λ st st', ∃ evs, trace st' = evs ++ trace st.

(** ** The outcome of the write loop of [Flush] *)

(** The trie after the entries of [order] were written over [r], reading
    the records from heap [h]. *)
Definition write_over (h : gmap loc Actor) (r : Node) (order : list (Address * loc)) : Node :=
  foldl (λ r' e, <[address.Bytes e.1 := h !!! e.2]> r') r order.

(** Every cached record is in the trie [r'] under its address's key, and
    the other keys are as in the trie the flush started from. *)
Definition all_written (st : StateTree) (r' : Node) : Prop :=
  (∀ a p, actorcache st !! a = Some p → r' !! address.Bytes a = Some (heap st !!! p)) ∧
  (∀ k, (∀ a, is_Some (actorcache st !! a) → address.Bytes a ≠ k) → r' !! k = root st !! k).

(** ** Failures and what they report *)

(** What a collaborator can answer when it fails: the trie's find and the
    table's lookup answer [ErrNotFound] for a key that is absent; any call
    to the storage layer can fail with an error of its own. *)
Definition collaborator_failure (c : Call) (e0 : error) : Prop :=
  match e0 with
  | ErrNotFound => (∃ k, c = NodeFind k) ∨ (∃ a, c = IasLookup a)
  | ErrStore _ => True
  | _ => False
  end.

(** [reports e e0]: the error [e] returned by a method stands for the
    collaborator's error [e0]: it is [e0], or [e0] was the trie's
    not-found and was translated, possibly under wrappers. *)
Inductive reports : error → error → Prop :=
| reports_same e0 : reports e0 e0
| reports_translated : reports ErrActorNotFound ErrNotFound
| reports_wrapped msg e e0 : reports e e0 → reports (Errorf msg e) e0.

(** A computation that only fails when a collaborator call, the most
    recent in the log, failed, and that then reports that failure. *)
Definition fails_reporting {A} (m : M A) : Prop :=
  ∀ st e st', m st = (inl e, st') →
    ∃ c e0 evs, trace st' = (c, Some e0) :: evs ++ trace st ∧
                collaborator_failure c e0 ∧ reports e e0.

(** A caller-supplied function that rewrites the record it is handed and
    then reports an error. *)
Definition mutate_then_fail (g : Actor → Actor) (e : error) (act : loc) : M unit :=
  do a <- load act ;;
  do _ <- store_Actor act (g a) ;;
  fail e.

(** ** What a tree holds for an address *)

(** The record the tree holds for an address in ID form: the cached
    record if the actor cache has an entry, the trie's otherwise. *)
Definition held (st : StateTree) (a : Address) : option Actor :=
  match actorcache st !! a with
  | Some p => Some (heap st !!! p)
  | None => root st !! address.Bytes a
  end.

(** A record, or the error [GetActor] gives for a missing one. *)
Definition found (o : option Actor) : Result Actor :=
  match o with
  | Some x => inr x
  | None => inl ErrActorNotFound
  end.


(** Every handle in the actor cache refers to an allocated record, as
    every Go pointer does. *)
Definition cache_allocated (st : StateTree) : Prop :=
  ∀ a p, actorcache st !! a = Some p → p ∈ dom (heap st).

(** The tree holds the same record for every address, the cached handles
    stay allocated and no allocated record is altered. *)
Definition held_kept : relation StateTree :=
  λ st st', cache_allocated st →
            cache_allocated st' ∧ (∀ b, held st' b = held st b) ∧ heap st ⊆ heap st'.

(** Every address the identifier cache answers with is in ID form. *)
Definition answers_canonical (c : lru.LRU) : bool :=
  forallb (λ kv, bool_decide (address.Protocol kv.2 = address.ID)) c.

(** Every key of the actor cache is in ID form. *)
Definition keyed_canonically (st : StateTree) : Prop :=
  ∀ a p, actorcache st !! a = Some p → address.Protocol a = address.ID.

(** The invariants of the two caches: the identifier cache maps addresses
    not in ID form to addresses in ID form, the actor cache is keyed by
    addresses in ID form, and its handles are allocated. *)
Definition well_formed (st : StateTree) : Prop :=
  canonical_free (idCache st) = true ∧ answers_canonical (idCache st) = true ∧
  keyed_canonically st ∧ cache_allocated st.

(** The invariants are kept, and no record is deallocated. *)
Definition wf_kept : relation StateTree :=
  λ st st', well_formed st → well_formed st' ∧ dom (heap st) ⊆ dom (heap st').

Definition heap_grows : relation StateTree :=
  λ st st', dom (heap st) ⊆ dom (heap st').

(** A callback that only allocates records and writes through handles. *)
Definition heap_only {A} (f : loc → M A) : Prop :=
  ∀ p st r st', f p st = (r, st') →
    idCache st' = idCache st ∧ actorcache st' = actorcache st ∧
    dom (heap st) ⊆ dom (heap st').

(** The trees a client can reach: the constructors' results, and from
    there any run of the methods, whatever they return.  The handles a
    client passes in are allocated, as every Go pointer is; between the
    calls the client may allocate records and write through handles, and
    so may the callback it passes to [MutateActor]. *)
Inductive reachable : StateTree → Prop :=
| reach_NewStateTree cst st :
    NewStateTree cst = inr st → reachable st
| reach_LoadStateTree cst c st :
    LoadStateTree cst c = inr st → reachable st
| reach_new_Actor a st :
    reachable st → reachable (exec (new_Actor a) st)
| reach_store_Actor p a st :
    reachable st → reachable (exec (store_Actor p a) st)
| reach_LookupID addr st r st' :
    reachable st → LookupID addr st = (r, st') → reachable st'
| reach_GetActor addr st r st' :
    reachable st → GetActor addr st = (r, st') → reachable st'
| reach_SetActor addr act st r st' :
    reachable st → act ∈ dom (heap st) → SetActor addr act st = (r, st') → reachable st'
| reach_Flush order st r st' :
    reachable st → Flush_range order st = (r, st') → reachable st'
| reach_Snapshot order st r st' :
    reachable st → Snapshot_range order st = (r, st') → reachable st'
| reach_Revert st r st' :
    reachable st → Revert st = (r, st') → reachable st'
| reach_MutateActor A addr (f : loc → M A) st r st' :
    reachable st → heap_only f → MutateActor addr f st = (r, st') → reachable st'
| reach_RegisterNewAddress addr act st r st' :
    reachable st → act ∈ dom (heap st) →
    RegisterNewAddress addr act st = (r, st') → reachable st'.

(** ** Concrete trees *)

Definition empty_store : CborIpldStore := mkStore [] [].

(** The tree [NewStateTree] builds over an empty store. *)
Definition fresh_tree : StateTree :=
  mkStateTree ∅ empty_store ∅ cid.Undef [] ∅ [].

(** The same tree with a given script of storage outcomes. *)
Definition with_faults (fs : list (option string)) (st : StateTree) : StateTree :=
  set_Store (mkStore (blocks (Store st)) fs) st.

Definition account (n : N) : Actor := mkActor (cid.At 1000) cid.Undef n 5%Z.

Definition bls42 : Address := address.NewBLSAddress 42.
Definition id7 : Address := address.NewIDAddress 7.
Definition id55 : Address := address.NewIDAddress 55.
Definition id100 : Address := address.NewIDAddress 100.

(** A genesis step: an init actor whose table is empty and whose
    allocator starts at 100, then an account with nonce 0 at ID address 7.
    The init actor's record is at location 0, the account's at 1. *)
Definition genesis : M unit :=
  do c <- Store_Put (InitBlock (mkInitActorState ∅ 100)) ;;
  do init <- new_Actor (mkActor (cid.At 1001) c 0 0%Z) ;;
  do _ <- SetActor InitAddress init ;;
  do acct <- new_Actor (account 0) ;;
  SetActor id7 acct.

Definition genesis_tree : StateTree := exec genesis fresh_tree.

(** The genesis tree and one more account record, with nonce 1, at
    location 2, not yet set anywhere. *)
Definition genesis_plus : StateTree := exec (new_Actor (account 1)) genesis_tree.

(** The genesis tree after the undefined address was registered. *)
Definition undef_registered : StateTree :=
  exec (do q <- new_Actor (account 3) ;; RegisterNewAddress address.Undef q) genesis_tree.

(** The genesis tree after the account at ID address 7 was rewritten in
    place: the cache holds nonce 8, the trie still nonce 0. *)
Definition dirty_tree : StateTree :=
  exec (MutateActor id7 (λ act, store_Actor act (account 8))) genesis_tree.

(** That tree over a storage layer whose third call fails: in a flush, the
    two trie writes go through and the trie's own flush fails. *)
Definition failing_flush : StateTree :=
  with_faults [None; None; Some "disk full"] dirty_tree.

(** [genesis_plus] over a storage layer that fails at its fourth call:
    the trie write of the final [SetActor] of a registration. *)
Definition failing_registration : StateTree :=
  with_faults [None; None; None; Some "io"] genesis_plus.

(** A new tree in which one account was set. *)
Definition one_account : StateTree :=
  exec (SetActor id7 0%N) (exec (new_Actor (account 0)) fresh_tree).

(** [genesis_plus] after the BLS address was registered for the record at
    location 2. *)
Definition registered_tree : StateTree :=
  exec (RegisterNewAddress bls42 2%N) genesis_plus.

(** The init actor's table in that tree. *)
Definition registered_table : InitActorState :=
  mkInitActorState (<[address.Bytes bls42 := 100%N]> ∅) 101.

(** A genesis whose init table has handed out no identifier yet: the next
    one it mints is 0, the init actor's own. *)
Definition genesis_zero : M unit :=
  do c <- Store_Put (InitBlock (mkInitActorState ∅ 0)) ;;
  do init <- new_Actor (mkActor (cid.At 1001) c 0 0%Z) ;;
  do _ <- SetActor InitAddress init ;;
  do acct <- new_Actor (account 0) ;;
  SetActor id7 acct.

(** That tree and one more account record, at location 2, over a storage
    layer that fails at its fourth call: the trie write of the final
    [SetActor] of a registration. *)
Definition failing_zero_registration : StateTree :=
  with_faults [None; None; None; Some "io"]
    (exec (new_Actor (account 1)) (exec genesis_zero fresh_tree)).

(** The genesis tree after a flush: the actor cache is empty, the trie
    and the store hold the two records. *)
Definition flushed_tree : StateTree := exec Flush genesis_tree.

(** The tree loaded from the root the flush of the genesis tree wrote. *)
Definition loaded_tree : StateTree :=
  match LoadStateTree (Store flushed_tree) (cid.At 1) with
  | inr st => st
  | inl _ => fresh_tree
  end.

(** The genesis tree at its snapshot. *)
Definition at_snapshot : StateTree := exec Snapshot genesis_tree.

(** After the snapshot: the account at ID address 7 is set to a record
    with nonce 1 and flushed, a BLS address is registered (it is minted ID
    address 100), the account is set again to a record with nonce 2; then
    the tree is reverted. *)
Definition since_snapshot : M unit :=
  do r <- new_Actor (account 1) ;;
  do _ <- SetActor id7 r ;;
  do _ <- Flush ;;
  do q <- new_Actor (account 3) ;;
  do _ <- RegisterNewAddress bls42 q ;;
  do r' <- new_Actor (account 2) ;;
  do _ <- SetActor id7 r' ;;
  Revert.

Definition after_revert : StateTree := exec since_snapshot at_snapshot.

(** The same run without the final revert. *)
Definition writes_since_snapshot : M unit :=
  do r <- new_Actor (account 1) ;;
  do _ <- SetActor id7 r ;;
  do _ <- Flush ;;
  do q <- new_Actor (account 3) ;;
  do _ <- RegisterNewAddress bls42 q ;;
  do r' <- new_Actor (account 2) ;;
  SetActor id7 r'.

Definition before_revert : StateTree := exec writes_since_snapshot at_snapshot.

(** * Properties *)

(** ** Running computations *)

Section monad_facts.
Context {A B : Type}.
Implicit Types (m : M A) (k : A → M B).

Lemma bind_inr m k st a st1 :
  m st = (inr a, st1) → bind m k st = k a st1.
Proof. intros H. unfold bind. by rewrite H. Qed.

Lemma bind_inl m k st e st1 :
  m st = (inl e, st1) → bind m k st = (inl e, st1).
Proof. intros H. unfold bind. by rewrite H. Qed.

Lemma bind_inv m k st r st' :
  bind m k st = (r, st') →
  (∃ a st1, m st = (inr a, st1) ∧ k a st1 = (r, st')) ∨
  (∃ e, m st = (inl e, st') ∧ r = inl e).
Proof.
  unfold bind. destruct (m st) as [[e|a] st1]; intros H.
  - right. exists e. by inversion H.
  - left. by exists a, st1.
Qed.

Lemma wrapping_inv msg m st r st' :
  wrapping msg m st = (r, st') →
  (∃ a, m st = (inr a, st') ∧ r = inr a) ∨
  (∃ e, m st = (inl e, st') ∧ r = inl (Errorf msg e)).
Proof.
  unfold wrapping. destruct (m st) as [[e|a] st1]; intros H; inversion H; eauto.
Qed.

Lemma try_eq m st : try m st = (inr (m st).1, (m st).2).
Proof. unfold try. by destruct (m st). Qed.
End monad_facts.

(** Setting a field to the value it already has is the identity. *)
Lemma set_idCache_id st : set_idCache (idCache st) st = st.
Proof. by destruct st. Qed.

Lemma set_root_id st : set_root (root st) st = st.
Proof. by destruct st. Qed.

(** ** The LRU *)

Lemma lru_lookup_remove key c : lru.lookup key (lru.remove key c) = None.
Proof.
  induction c as [|[k v] c IH]; simpl; [done|].
  destruct (decide (key = k)) as [->|Hne]; [done|].
  simpl. by rewrite decide_False.
Qed.

Lemma lru_Get_miss key c : lru.lookup key c = None → lru.Get key c = (None, c).
Proof. intros H. unfold lru.Get. by rewrite H. Qed.

Lemma lru_Get_hit key v c :
  lru.lookup key c = Some v → lru.Get key c = (Some v, (key, v) :: lru.remove key c).
Proof. intros H. unfold lru.Get. by rewrite H. Qed.

Lemma lru_lookup_Add n key v c : lru.lookup key (lru.Add (S n) key v c) = Some v.
Proof.
  unfold lru.Add. destruct (lru.lookup key c); simpl; by rewrite decide_True.
Qed.

Lemma canonical_free_lookup c key :
  canonical_free c = true → address.Protocol key = address.ID → lru.lookup key c = None.
Proof.
  intros Hc Hk. induction c as [|[k v] c IH]; simpl in *; [done|].
  apply andb_prop in Hc as [Hkv Hc]. apply bool_decide_eq_true in Hkv. simpl in Hkv.
  rewrite decide_False; [by apply IH | congruence].
Qed.

(** ** Resolution terminates within the recursion budget *)

(** Resolving the init actor's address never reaches the call to
    [GetActor]: the identifier cache or the protocol test answers. *)
Lemma LookupID_body_InitAddress G G' st :
  LookupID_body G InitAddress st = LookupID_body G' InitAddress st.
Proof.
  unfold LookupID_body, bind.
  destruct (idCache_Get InitAddress st) as [[e|[id|]] st1]; done.
Qed.

(** [LookupID_body] only ever calls its argument on the init address. *)
Lemma LookupID_body_ext G G' addr st :
  (∀ st1, G InitAddress st1 = G' InitAddress st1) →
  LookupID_body G addr st = LookupID_body G' addr st.
Proof.
  intros HG. unfold LookupID_body, bind.
  destruct (idCache_Get addr st) as [[e|[id|]] st1]; try done.
  destruct (decide _); [done|].
  unfold wrapping. by rewrite HG.
Qed.

Lemma GetActor_body_ext L L' addr st :
  (∀ st1, L addr st1 = L' addr st1) →
  GetActor_body L addr st = GetActor_body L' addr st.
Proof.
  intros HL. unfold GetActor_body. destruct (decide _); [done|].
  unfold bind, try. by rewrite HL.
Qed.

(** Any budget of at least two calls gives the same result as [LookupID];
    [LookupID_within_budget] below shows that the budget is never what
    makes it fail. *)
Lemma LookupID_depth_enough n addr st :
  LookupID_depth (S (S n)) addr st = LookupID addr st.
Proof.
  unfold LookupID. simpl. apply LookupID_body_ext. intros st1.
  apply GetActor_body_ext. intros st2. apply LookupID_body_InitAddress.
Qed.

Lemma LookupID_unfold addr st :
  LookupID addr st = LookupID_body GetActor addr st.
Proof.
  rewrite <- (LookupID_depth_enough 1). reflexivity.
Qed.

(** ** Frame reasoning

    A relation between the state before and after a computation that is
    reflexive, transitive and blind to logging and to the consumption of
    the fault script is preserved by sequencing; it then only has to be
    checked on the primitive steps. *)

Section frame_rules.
Context (R : relation StateTree) `{!Frame R}.

Lemma preserves_ret {A} (a : A) : preserves R (ret a).
Proof. intros st r st' [= <- <-]. reflexivity. Qed.

Lemma preserves_fail {A} e : preserves R (@fail A e).
Proof. intros st r st' [= <- <-]. reflexivity. Qed.

Lemma preserves_gets {A} (f : StateTree → A) : preserves R (gets f).
Proof. intros st r st' [= <- <-]. reflexivity. Qed.

Lemma preserves_bind {A B} (m : M A) (k : A → M B) :
  preserves R m → (∀ a, preserves R (k a)) → preserves R (bind m k).
Proof.
  intros Hm Hk st r st' H.
  apply bind_inv in H as [(a & st1 & H1 & H2)|(e & H1 & _)].
  - etrans; [by eapply Hm | by eapply Hk].
  - by eapply Hm.
Qed.

Lemma preserves_try {A} (m : M A) : preserves R m → preserves R (try m).
Proof.
  intros Hm st r st'. rewrite try_eq. intros [= <- <-].
  eapply Hm. apply surjective_pairing.
Qed.

Lemma preserves_wrapping {A} msg (m : M A) :
  preserves R m → preserves R (wrapping msg m).
Proof.
  intros Hm st r st' H.
  apply wrapping_inv in H as [(a & H & _)|(e & H & _)]; by eapply Hm.
Qed.

Lemma preserves_modify f :
  (∀ st, R st (f st)) → preserves R (modify f).
Proof. intros Hf st r st' [= <- <-]. apply Hf. Qed.

Lemma preserves_storage_call {A} c (op : StateTree → Result A * StateTree) :
  (∀ st r st', op st = (r, st') → R st st') → preserves R (storage_call c op).
Proof.
  intros Hop st r st'. unfold storage_call.
  pose proof (frame_fault st) as Hf.
  destruct (take_fault st) as [[msg|] st1]; simpl in Hf.
  - intros [= <- <-]. etrans; [done|]. apply frame_log.
  - destruct (op st1) as [r2 st2] eqn:E. intros [= <- <-].
    etrans; [done|]. etrans; [by eapply Hop|]. apply frame_log.
Qed.

Lemma preserves_memory_call {A} c (op : StateTree → A * StateTree) :
  (∀ st, R st (op st).2) → preserves R (memory_call c op).
Proof.
  intros Hop st r st'. unfold memory_call.
  pose proof (Hop st) as H. destruct (op st) as [a st1]. simpl in H.
  intros [= <- <-]. etrans; [done|]. apply frame_log.
Qed.

Lemma preserves_if {A} (b : bool) (m1 m2 : M A) :
  preserves R m1 → preserves R m2 → preserves R (if b then m1 else m2).
Proof. by destruct b. Qed.

Lemma preserves_decide {A} (P : Prop) `{!Decision P} (m1 m2 : M A) :
  (P → preserves R m1) → (¬ P → preserves R m2) →
  preserves R (if decide P then m1 else m2).
Proof. destruct (decide P); auto. Qed.
End frame_rules.

Create HintDb frame discriminated.

Tactic Notation "fapply" uconstr(lem) := apply lem; try (solve [apply _]).
Ltac frame_step :=
  first
    [ assumption
    | match goal with H : ∀ _, preserves _ _ |- _ => apply H end
    | fapply preserves_ret | fapply preserves_fail | fapply preserves_gets
    | fapply preserves_bind; [|intros ?]
    | fapply preserves_try | fapply preserves_wrapping
    | fapply preserves_decide; intros ?
    | fapply preserves_if
    | match goal with
      | |- preserves _ (match ?x with _ => _ end) => destruct x
      end ].
Ltac frame := repeat frame_step; eauto with frame.

Section frame_primitives.
Context (R : relation StateTree) `{!Frame R}.

Lemma preserves_root_Find k : preserves R (root_Find k).
Proof. fapply preserves_storage_call. by intros st r st' [= _ <-]. Qed.

Lemma preserves_root_Flush : preserves R root_Flush.
Proof. fapply preserves_storage_call. by intros st r st' [= _ <-]. Qed.

Lemma preserves_hamt_LoadNode c : preserves R (hamt_LoadNode c).
Proof. fapply preserves_storage_call. by intros st r st' [= _ <-]. Qed.

Lemma preserves_Store_Get c : preserves R (Store_Get c).
Proof. fapply preserves_storage_call. by intros st r st' [= _ <-]. Qed.

Lemma preserves_ias_Lookup s addr : preserves R (ias_Lookup s addr).
Proof. fapply preserves_storage_call. by intros st r st' [= _ <-]. Qed.

Lemma preserves_ias_AddActor s addr : preserves R (ias_AddActor s addr).
Proof. fapply preserves_storage_call. by intros st r st' [= _ <-]. Qed.

Lemma preserves_load act : preserves R (load act).
Proof. fapply preserves_gets. Qed.

Lemma preserves_idCache_Get `{!FrameIdCache R} addr : preserves R (idCache_Get addr).
Proof.
  fapply preserves_memory_call. intros st.
  pose proof (frame_Get addr st) as H. by destruct (lru.Get addr (idCache st)).
Qed.

Lemma preserves_idCache_Add `{!FrameIdCache R} addr id :
  address.Protocol addr ≠ address.ID → preserves R (idCache_Add addr id).
Proof. intros Hp. fapply preserves_memory_call. intros st. by apply frame_Add. Qed.

Lemma preserves_idCache_Purge `{!FramePurge R} : preserves R idCache_Purge.
Proof. fapply preserves_memory_call. intros st. apply frame_Purge. Qed.

Lemma preserves_root_Set `{!FrameRoot R} k a : preserves R (root_Set k a).
Proof.
  fapply preserves_storage_call. intros st r st' [= _ <-]. apply frame_root.
Qed.

Lemma preserves_Store_Put `{!FrameBlocks R} b : preserves R (Store_Put b).
Proof.
  fapply preserves_storage_call. intros st r st'.
  pose proof (frame_blocks b st) as H.
  destruct (store.put b (blocks (Store st))) as [c bs]. by intros [= _ <-].
Qed.

Lemma preserves_new_Actor `{!FrameHeap R} a : preserves R (new_Actor a).
Proof. intros st r st' [= _ <-]. apply frame_heap. Qed.

Lemma preserves_store_Actor `{!FrameHeap R} act a : preserves R (store_Actor act a).
Proof. fapply preserves_modify. intros st. apply frame_heap. Qed.

Lemma preserves_set_actorcache `{!FrameActorcache R} (f : StateTree → gmap Address loc) :
  preserves R (modify (λ st, set_actorcache (f st) st)).
Proof. fapply preserves_modify. intros st. apply frame_actorcache. Qed.

Lemma preserves_clear_actorcache `{!FrameActorcache R} :
  preserves R (modify (set_actorcache ∅)).
Proof. fapply preserves_modify. intros st. apply frame_actorcache. Qed.

Lemma preserves_set_snapshot `{!FrameSnapshot R} c : preserves R (modify (set_snapshot c)).
Proof. fapply preserves_modify. intros st. apply frame_snapshot. Qed.

Lemma preserves_set_root `{!FrameRoot R} n : preserves R (modify (set_root n)).
Proof. fapply preserves_modify. intros st. apply frame_root. Qed.
End frame_primitives.

#[global] Hint Resolve preserves_root_Find preserves_root_Flush preserves_hamt_LoadNode
  preserves_Store_Get preserves_ias_Lookup preserves_ias_AddActor preserves_load
  preserves_idCache_Get preserves_idCache_Add preserves_idCache_Purge
  preserves_root_Set preserves_Store_Put preserves_new_Actor preserves_store_Actor
  preserves_set_actorcache preserves_clear_actorcache preserves_set_snapshot
  preserves_set_root : frame.

#[global] Hint Extern 1 (Frame _) => apply _ : frame.
#[global] Hint Extern 1 (FrameIdCache _) => apply _ : frame.
#[global] Hint Extern 1 (FramePurge _) => apply _ : frame.
#[global] Hint Extern 1 (FrameHeap _) => apply _ : frame.
#[global] Hint Extern 1 (FrameActorcache _) => apply _ : frame.
#[global] Hint Extern 1 (FrameRoot _) => apply _ : frame.
#[global] Hint Extern 1 (FrameBlocks _) => apply _ : frame.
#[global] Hint Extern 1 (FrameSnapshot _) => apply _ : frame.

(** The methods preserve every relation that is blind to the fields they
    write. *)
Section frame_methods.
Context (R : relation StateTree) `{!Frame R}.

Lemma preserves_LookupID_body `{!FrameIdCache R} G addr :
  preserves R (G InitAddress) → preserves R (LookupID_body G addr).
Proof. intros HG. unfold LookupID_body. frame. Qed.

Lemma preserves_GetActor_body `{!FrameHeap R, !FrameActorcache R} L addr :
  preserves R (L addr) → preserves R (GetActor_body L addr).
Proof. intros HL. unfold GetActor_body. frame. Qed.

Lemma preserves_LookupID_depth
    `{!FrameIdCache R, !FrameHeap R, !FrameActorcache R} n addr :
  preserves R (LookupID_depth n addr).
Proof.
  revert addr. induction n as [|n IH]; intros addr; simpl.
  - by fapply preserves_fail.
  - fapply preserves_LookupID_body. by fapply preserves_GetActor_body.
Qed.

Lemma preserves_LookupID `{!FrameIdCache R, !FrameHeap R, !FrameActorcache R} addr :
  preserves R (LookupID addr).
Proof. fapply preserves_LookupID_depth. Qed.

Lemma preserves_GetActor `{!FrameIdCache R, !FrameHeap R, !FrameActorcache R} addr :
  preserves R (GetActor addr).
Proof. fapply preserves_GetActor_body. by fapply preserves_LookupID. Qed.

Lemma preserves_SetActor
    `{!FrameIdCache R, !FrameHeap R, !FrameActorcache R, !FrameRoot R} addr act :
  preserves R (SetActor addr act).
Proof. unfold SetActor. pose proof (preserves_LookupID addr). frame. Qed.

Lemma preserves_write_entries `{!FrameRoot R} order : preserves R (write_entries order).
Proof. induction order as [|[addr act] order IH]; simpl; frame. Qed.

Lemma preserves_Flush_range
    `{!FrameRoot R, !FrameActorcache R, !FrameBlocks R} order :
  preserves R (Flush_range order).
Proof. unfold Flush_range. pose proof (preserves_write_entries order). frame. Qed.

Lemma preserves_MutateActor {A}
    `{!FrameIdCache R, !FrameHeap R, !FrameActorcache R, !FrameRoot R}
    addr (f : loc → M A) :
  (∀ act, preserves R (f act)) → preserves R (MutateActor addr f).
Proof.
  intros Hf. unfold MutateActor.
  pose proof (preserves_GetActor addr). pose proof (λ act, preserves_SetActor addr act).
  frame.
Qed.

Lemma preserves_RegisterNewAddress
    `{!FrameIdCache R, !FrameHeap R, !FrameActorcache R, !FrameRoot R, !FrameBlocks R}
    addr act :
  preserves R (RegisterNewAddress addr act).
Proof.
  unfold RegisterNewAddress.
  pose proof (λ a, preserves_SetActor a act).
  fapply preserves_bind; [|intros out; by frame].
  fapply preserves_MutateActor. intros initact. unfold RegisterNewAddress_func. frame.
Qed.
Lemma preserves_Snapshot_range
    `{!FrameRoot R, !FrameActorcache R, !FrameBlocks R, !FrameSnapshot R} order :
  preserves R (Snapshot_range order).
Proof. unfold Snapshot_range. pose proof (preserves_Flush_range order). frame. Qed.

Lemma preserves_Revert `{!FramePurge R, !FrameRoot R} : preserves R Revert.
Proof. unfold Revert. frame. Qed.
End frame_methods.

(** ** Relations that say a component of the state is kept *)

Ltac keeps_instance :=
  repeat split; repeat intros ?; unfold keeps, rel_and in *;
  try match goal with
      | |- context [take_fault ?st] =>
          unfold take_fault; destruct (faults (Store st))
      end;
  simpl in *; try done; try congruence.

#[global] Instance rel_and_frame R1 R2 : Frame R1 → Frame R2 → Frame (rel_and R1 R2).
Proof.
  intros H1 H2. split.
  - intros st. split; reflexivity.
  - intros st1 st2 st3 [? ?] [? ?]. split; etrans; done.
  - intros ev st. split; apply frame_log.
  - intros st. split; apply frame_fault.
Qed.
#[global] Instance rel_and_idCache R1 R2 :
  FrameIdCache R1 → FrameIdCache R2 → FrameIdCache (rel_and R1 R2).
Proof. intros H1 H2. split; intros; split; by (apply frame_Get || apply frame_Add). Qed.
#[global] Instance rel_and_purge R1 R2 :
  FramePurge R1 → FramePurge R2 → FramePurge (rel_and R1 R2).
Proof. intros H1 H2 st. split; apply frame_Purge. Qed.
#[global] Instance rel_and_heap R1 R2 :
  FrameHeap R1 → FrameHeap R2 → FrameHeap (rel_and R1 R2).
Proof. intros H1 H2 h st. split; apply frame_heap. Qed.
#[global] Instance rel_and_actorcache R1 R2 :
  FrameActorcache R1 → FrameActorcache R2 → FrameActorcache (rel_and R1 R2).
Proof. intros H1 H2 c st. split; apply frame_actorcache. Qed.
#[global] Instance rel_and_root R1 R2 :
  FrameRoot R1 → FrameRoot R2 → FrameRoot (rel_and R1 R2).
Proof. intros H1 H2 n st. split; apply frame_root. Qed.
#[global] Instance rel_and_blocks R1 R2 :
  FrameBlocks R1 → FrameBlocks R2 → FrameBlocks (rel_and R1 R2).
Proof. intros H1 H2 b st. split; apply frame_blocks. Qed.
#[global] Instance rel_and_snapshot R1 R2 :
  FrameSnapshot R1 → FrameSnapshot R2 → FrameSnapshot (rel_and R1 R2).
Proof. intros H1 H2 c st. split; apply frame_snapshot. Qed.

(** The trie root is written by [root.Set] and by [Revert] only. *)
#[global] Instance keeps_root_frame : Frame (keeps root).
Proof. keeps_instance. Qed.
#[global] Instance keeps_root_idCache : FrameIdCache (keeps root).
Proof. keeps_instance. Qed.
#[global] Instance keeps_root_purge : FramePurge (keeps root).
Proof. keeps_instance. Qed.
#[global] Instance keeps_root_heap : FrameHeap (keeps root).
Proof. keeps_instance. Qed.
#[global] Instance keeps_root_actorcache : FrameActorcache (keeps root).
Proof. keeps_instance. Qed.
#[global] Instance keeps_root_blocks : FrameBlocks (keeps root).
Proof. keeps_instance. Qed.
#[global] Instance keeps_root_snapshot : FrameSnapshot (keeps root).
Proof. keeps_instance. Qed.

#[global] Instance keeps_stored_frame : Frame (keeps stored).
Proof. keeps_instance. Qed.
#[global] Instance keeps_stored_idCache : FrameIdCache (keeps stored).
Proof. keeps_instance. Qed.
#[global] Instance keeps_stored_purge : FramePurge (keeps stored).
Proof. keeps_instance. Qed.
#[global] Instance keeps_stored_heap : FrameHeap (keeps stored).
Proof. keeps_instance. Qed.
#[global] Instance keeps_stored_actorcache : FrameActorcache (keeps stored).
Proof. keeps_instance. Qed.
#[global] Instance keeps_stored_root : FrameRoot (keeps stored).
Proof. keeps_instance. Qed.
#[global] Instance keeps_stored_snapshot : FrameSnapshot (keeps stored).
Proof. keeps_instance. Qed.

(** The snapshot reference is written by [Snapshot] only. *)
#[global] Instance keeps_snapshot_frame : Frame (keeps snapshot).
Proof. keeps_instance. Qed.
#[global] Instance keeps_snapshot_idCache : FrameIdCache (keeps snapshot).
Proof. keeps_instance. Qed.
#[global] Instance keeps_snapshot_purge : FramePurge (keeps snapshot).
Proof. keeps_instance. Qed.
#[global] Instance keeps_snapshot_heap : FrameHeap (keeps snapshot).
Proof. keeps_instance. Qed.
#[global] Instance keeps_snapshot_actorcache : FrameActorcache (keeps snapshot).
Proof. keeps_instance. Qed.
#[global] Instance keeps_snapshot_root : FrameRoot (keeps snapshot).
Proof. keeps_instance. Qed.
#[global] Instance keeps_snapshot_blocks : FrameBlocks (keeps snapshot).
Proof. keeps_instance. Qed.

(** The actor cache, the identifier cache and the heap. *)
#[global] Instance keeps_actorcache_frame : Frame (keeps actorcache).
Proof. keeps_instance. Qed.
#[global] Instance keeps_actorcache_idCache : FrameIdCache (keeps actorcache).
Proof. keeps_instance. Qed.
#[global] Instance keeps_actorcache_purge : FramePurge (keeps actorcache).
Proof. keeps_instance. Qed.
#[global] Instance keeps_actorcache_heap : FrameHeap (keeps actorcache).
Proof. keeps_instance. Qed.
#[global] Instance keeps_actorcache_root : FrameRoot (keeps actorcache).
Proof. keeps_instance. Qed.
#[global] Instance keeps_actorcache_blocks : FrameBlocks (keeps actorcache).
Proof. keeps_instance. Qed.
#[global] Instance keeps_actorcache_snapshot : FrameSnapshot (keeps actorcache).
Proof. keeps_instance. Qed.

#[global] Instance keeps_idCache_frame : Frame (keeps idCache).
Proof. keeps_instance. Qed.
#[global] Instance keeps_idCache_heap : FrameHeap (keeps idCache).
Proof. keeps_instance. Qed.
#[global] Instance keeps_idCache_actorcache : FrameActorcache (keeps idCache).
Proof. keeps_instance. Qed.
#[global] Instance keeps_idCache_root : FrameRoot (keeps idCache).
Proof. keeps_instance. Qed.
#[global] Instance keeps_idCache_blocks : FrameBlocks (keeps idCache).
Proof. keeps_instance. Qed.
#[global] Instance keeps_idCache_snapshot : FrameSnapshot (keeps idCache).
Proof. keeps_instance. Qed.

#[global] Instance keeps_heap_frame : Frame (keeps heap).
Proof. keeps_instance. Qed.
#[global] Instance keeps_heap_idCache : FrameIdCache (keeps heap).
Proof. keeps_instance. Qed.
#[global] Instance keeps_heap_purge : FramePurge (keeps heap).
Proof. keeps_instance. Qed.
#[global] Instance keeps_heap_actorcache : FrameActorcache (keeps heap).
Proof. keeps_instance. Qed.
#[global] Instance keeps_heap_root : FrameRoot (keeps heap).
Proof. keeps_instance. Qed.
#[global] Instance keeps_heap_blocks : FrameBlocks (keeps heap).
Proof. keeps_instance. Qed.
#[global] Instance keeps_heap_snapshot : FrameSnapshot (keeps heap).
Proof. keeps_instance. Qed.

(** ** The identifier cache holds no address in ID form *)

Lemma canonical_free_remove key c :
  canonical_free c = true → canonical_free (lru.remove key c) = true.
Proof.
  induction c as [|[k v] c IH]; simpl; [done|].
  intros [Hk Hc]%andb_prop. destruct (decide (key = k)); simpl; [by apply IH|].
  by rewrite Hk, IH.
Qed.

Lemma canonical_free_Get key c :
  canonical_free c = true → canonical_free (lru.Get key c).2 = true.
Proof.
  intros Hc. unfold lru.Get. destruct (lru.lookup key c) eqn:E; simpl; [|done].
  rewrite canonical_free_remove by done. rewrite andb_true_r.
  apply bool_decide_eq_true. intros Hp.
  by rewrite (canonical_free_lookup c key) in E.
Qed.

Lemma canonical_free_take n c :
  canonical_free c = true → canonical_free (take n c) = true.
Proof.
  revert n. induction c as [|kv c IH]; intros [|n]; simpl; try done.
  intros [Hk Hc]%andb_prop. by rewrite Hk, IH.
Qed.

Lemma canonical_free_Add n key v c :
  address.Protocol key ≠ address.ID →
  canonical_free c = true → canonical_free (lru.Add n key v c) = true.
Proof.
  intros Hp Hc. unfold lru.Add.
  assert (canonical_free ((key, v) :: c) = true) as Hkc.
  { simpl. by rewrite bool_decide_eq_true_2. }
  destruct (lru.lookup key c).
  - simpl. rewrite bool_decide_eq_true_2 by done. by apply canonical_free_remove.
  - by apply canonical_free_take.
Qed.

#[global] Instance canonical_kept_frame : Frame canonical_kept.
Proof.
  split; unfold canonical_kept.
  - by intros st.
  - intros st1 st2 st3 H12 H23 H. auto.
  - by intros ev st.
  - intros st. unfold take_fault. by destruct (faults (Store st)).
Qed.
#[global] Instance canonical_kept_idCache : FrameIdCache canonical_kept.
Proof.
  split; unfold canonical_kept; simpl; intros.
  - by apply canonical_free_Get.
  - by apply canonical_free_Add.
Qed.
#[global] Instance canonical_kept_purge : FramePurge canonical_kept.
Proof. intros st H. reflexivity. Qed.
#[global] Instance canonical_kept_heap : FrameHeap canonical_kept.
Proof. intros h st H. exact H. Qed.
#[global] Instance canonical_kept_actorcache : FrameActorcache canonical_kept.
Proof. intros c st H. exact H. Qed.
#[global] Instance canonical_kept_root : FrameRoot canonical_kept.
Proof. intros n st H. exact H. Qed.
#[global] Instance canonical_kept_blocks : FrameBlocks canonical_kept.
Proof. intros b st H. exact H. Qed.
#[global] Instance canonical_kept_snapshot : FrameSnapshot canonical_kept.
Proof. intros c st H. exact H. Qed.

(** ** The methods, step by step *)

Lemma bind_inr_inv {A B} (m : M A) (k : A → M B) st b st' :
  bind m k st = (inr b, st') →
  ∃ a st1, m st = (inr a, st1) ∧ k a st1 = (inr b, st').
Proof.
  intros H. apply bind_inv in H as [(a & st1 & H1 & H2)|(e & _ & [=])]; eauto.
Qed.

Lemma wrapping_inr_inv {A} msg (m : M A) st a st' :
  wrapping msg m st = (inr a, st') → m st = (inr a, st').
Proof.
  intros H. apply wrapping_inv in H as [(a' & H & [= ->])|(e & _ & [=])]; done.
Qed.

Lemma storage_call_unfold {A} c (op : StateTree → Result A * StateTree) st :
  storage_call c op st =
    match (take_fault st).1 with
    | Some msg => (inl (ErrStore msg), log (c, Some (ErrStore msg)) (take_fault st).2)
    | None => ((op (take_fault st).2).1,
               log (c, err_of (op (take_fault st).2).1) (op (take_fault st).2).2)
    end.
Proof.
  unfold storage_call. destruct (take_fault st) as [[msg|] st1]; simpl; [done|].
  by destruct (op st1).
Qed.

Lemma idCache_Get_eq addr st :
  idCache_Get addr st =
    (inr (lru.lookup addr (idCache st)),
     log (IdCacheGet addr, None) (set_idCache (lru.Get addr (idCache st)).2 st)).
Proof. unfold idCache_Get, memory_call, lru.Get. by destruct (lru.lookup _ _). Qed.

(** [LookupID] answered by the identifier cache. *)
Lemma LookupID_cached addr id st :
  lru.lookup addr (idCache st) = Some id →
  LookupID addr st =
    (inr id, log (IdCacheGet addr, None)
               (set_idCache ((addr, id) :: lru.remove addr (idCache st)) st)).
Proof.
  intros H. rewrite LookupID_unfold. unfold LookupID_body.
  erewrite bind_inr by apply idCache_Get_eq.
  rewrite H. by rewrite (lru_Get_hit _ _ _ H).
Qed.

(** [LookupID] answered by the protocol test. *)
Lemma LookupID_miss_ID addr st :
  lru.lookup addr (idCache st) = None →
  address.Protocol addr = address.ID →
  LookupID addr st = (inr addr, log (IdCacheGet addr, None) st).
Proof.
  intros H Hp. rewrite LookupID_unfold. unfold LookupID_body.
  erewrite bind_inr by apply idCache_Get_eq.
  rewrite H, (lru_Get_miss _ _ H), decide_True by done.
  simpl. by rewrite set_idCache_id.
Qed.

(** After a successful resolution the answer is either in the identifier
    cache or the address was canonical and is its own answer. *)
Lemma LookupID_resolved addr iaddr st st1 :
  LookupID addr st = (inr iaddr, st1) →
  lru.lookup addr (idCache st1) = Some iaddr ∨
  (address.Protocol addr = address.ID ∧ iaddr = addr ∧
   lru.lookup addr (idCache st1) = None).
Proof.
  rewrite LookupID_unfold. unfold LookupID_body. intros H.
  apply bind_inr_inv in H as (hit & st0 & H0 & H).
  rewrite idCache_Get_eq in H0. injection H0 as <- <-.
  destruct (lru.lookup addr (idCache st)) as [id|] eqn:E.
  - injection H as <- <-. left. simpl. rewrite (lru_Get_hit _ _ _ E). simpl.
    by rewrite decide_True.
  - destruct (decide _) as [Hp|Hp].
    + injection H as <- <-. right. simpl. by rewrite (lru_Get_miss _ _ E).
    + left.
      apply bind_inr_inv in H as (act & st2 & _ & H).
      apply bind_inr_inv in H as (a & st3 & _ & H).
      apply bind_inr_inv in H as (s & st4 & _ & H).
      apply bind_inr_inv in H as (id & st5 & _ & H).
      apply bind_inr_inv in H as ([] & st6 & H6 & H).
      injection H as <- <-. injection H6 as <-. simpl.
      apply (lru_lookup_Add 1023).
Qed.

(** Resolution is stable: resolving the same address again, in any state
    with the same identifier cache, gives the same answer and touches
    nothing but that cache and the log. *)
Lemma LookupID_again addr iaddr st st1 st2 :
  LookupID addr st = (inr iaddr, st1) →
  idCache st2 = idCache st1 →
  ∃ c, LookupID addr st2 = (inr iaddr, log (IdCacheGet addr, None) (set_idCache c st2)).
Proof.
  intros H Hc. apply LookupID_resolved in H as [H|(Hp & -> & H)]; rewrite <- Hc in H.
  - eexists. by apply LookupID_cached.
  - exists (idCache st2). rewrite set_idCache_id. by apply LookupID_miss_ID.
Qed.

Lemma root_Find_unfold k st :
  root_Find k st =
    match (take_fault st).1 with
    | Some msg => (inl (ErrStore msg), log (NodeFind k, Some (ErrStore msg)) (take_fault st).2)
    | None =>
        match root st !! k with
        | Some a => (inr a, log (NodeFind k, None) (take_fault st).2)
        | None => (inl ErrNotFound, log (NodeFind k, Some ErrNotFound) (take_fault st).2)
        end
    end.
Proof.
  unfold root_Find. rewrite storage_call_unfold.
  assert (root (take_fault st).2 = root st) as ->.
  { unfold take_fault. by destruct (faults (Store st)). }
  destruct (take_fault st).1; [done|]. simpl. by destruct (root st !! k).
Qed.

Lemma root_Set_unfold k a st :
  root_Set k a st =
    match (take_fault st).1 with
    | Some msg => (inl (ErrStore msg), log (NodeSet k, Some (ErrStore msg)) (take_fault st).2)
    | None => (inr tt, log (NodeSet k, None)
                         (set_root (<[k := a]> (root st)) (take_fault st).2))
    end.
Proof.
  unfold root_Set. rewrite storage_call_unfold.
  assert (root (take_fault st).2 = root st) as ->.
  { unfold take_fault. by destruct (faults (Store st)). }
  by destruct (take_fault st).1.
Qed.

(** [GetActor], one case per return statement of the source. *)
Lemma GetActor_body_unfold L addr st :
  GetActor_body L addr st =
    if decide (addr = address.Undef) then (inl ErrUndefinedAddress, st)
    else
      match L addr st with
      | (inl err, st1) =>
          (inl (if Is err ErrNotFound
                then Errorf "resolution lookup failed" ErrActorNotFound
                else Errorf "address resolution" err), st1)
      | (inr iaddr, st1) =>
          match actorcache st1 !! iaddr with
          | Some cact => (inr cact, st1)
          | None =>
              match root_Find (address.Bytes iaddr) st1 with
              | (inl err, st2) =>
                  (inl (if decide (err = ErrNotFound) then ErrActorNotFound
                        else Errorf "hamt find failed" err), st2)
              | (inr a, st2) =>
                  let act := fresh (dom (heap st2)) in
                  (inr act,
                   set_actorcache (<[iaddr := act]> (actorcache st2))
                     (set_heap (<[act := a]> (heap st2)) st2))
              end
          end
      end.
Proof.
  unfold GetActor_body. destruct (decide _); [done|].
  unfold bind at 1. rewrite try_eq.
  destruct (L addr st) as [[err|iaddr] st1]; simpl.
  - by destruct (Is err ErrNotFound).
  - unfold bind at 1. unfold gets at 1.
    destruct (actorcache st1 !! iaddr); [done|].
    unfold bind at 1. rewrite try_eq.
    destruct (root_Find _ st1) as [[err|a] st2]; simpl; [|done].
    by destruct (decide _).
Qed.

Lemma GetActor_unfold addr st :
  GetActor addr st =
    if decide (addr = address.Undef) then (inl ErrUndefinedAddress, st)
    else
      match LookupID addr st with
      | (inl err, st1) =>
          (inl (if Is err ErrNotFound
                then Errorf "resolution lookup failed" ErrActorNotFound
                else Errorf "address resolution" err), st1)
      | (inr iaddr, st1) =>
          match actorcache st1 !! iaddr with
          | Some cact => (inr cact, st1)
          | None =>
              match root_Find (address.Bytes iaddr) st1 with
              | (inl err, st2) =>
                  (inl (if decide (err = ErrNotFound) then ErrActorNotFound
                        else Errorf "hamt find failed" err), st2)
              | (inr a, st2) =>
                  let act := fresh (dom (heap st2)) in
                  (inr act,
                   set_actorcache (<[iaddr := act]> (actorcache st2))
                     (set_heap (<[act := a]> (heap st2)) st2))
              end
          end
      end.
Proof. apply GetActor_body_unfold. Qed.

(** [SetActor], one case per return statement of the source. *)
Lemma SetActor_unfold addr act st :
  SetActor addr act st =
    match LookupID addr st with
    | (inl err, st1) => (inl (Errorf "ID lookup failed" err), st1)
    | (inr iaddr, st1) =>
        if decide (actorcache st1 !! iaddr = Some act) then (inr tt, st1)
        else root_Set (address.Bytes iaddr) (heap st1 !!! act)
               (set_actorcache (<[iaddr := act]> (actorcache st1)) st1)
    end.
Proof.
  unfold SetActor. unfold bind at 1. unfold wrapping.
  destruct (LookupID addr st) as [[err|iaddr] st1]; [done|].
  unfold bind at 1. unfold gets at 1.
  destruct (decide _); done.
Qed.

(** A cache hit in [GetActor]. *)
Lemma GetActor_cached addr iaddr act st st1 :
  addr ≠ address.Undef →
  LookupID addr st = (inr iaddr, st1) →
  actorcache st1 !! iaddr = Some act →
  GetActor addr st = (inr act, st1).
Proof.
  intros Hu HL Hc. rewrite GetActor_unfold, decide_False, HL, Hc by done. done.
Qed.

(** What a successful [GetActor] leaves behind. *)
Lemma GetActor_inr_inv addr act st st' :
  GetActor addr st = (inr act, st') →
  addr ≠ address.Undef ∧
  ∃ iaddr st1, LookupID addr st = (inr iaddr, st1) ∧
               actorcache st' !! iaddr = Some act ∧
               idCache st' = idCache st1.
Proof.
  rewrite GetActor_unfold. destruct (decide _) as [|Hu]; [done|].
  destruct (LookupID addr st) as [[err|iaddr] st1] eqn:HL; [done|].
  intros H. split; [done|]. exists iaddr, st1. split; [done|].
  destruct (actorcache st1 !! iaddr) as [cact|] eqn:Hc.
  - by injection H as <- <-.
  - pose proof (preserves_root_Find (keeps idCache) (address.Bytes iaddr) st1) as Hk.
    destruct (root_Find _ st1) as [[err|a] st2]; [done|].
    specialize (Hk _ _ eq_refl). injection H as <- <-. simpl.
    by rewrite lookup_insert_eq.
Qed.

Lemma take_fault_fields st :
  root (take_fault st).2 = root st ∧
  stored (take_fault st).2 = stored st ∧
  actorcache (take_fault st).2 = actorcache st ∧
  snapshot (take_fault st).2 = snapshot st ∧
  idCache (take_fault st).2 = idCache st ∧
  heap (take_fault st).2 = heap st ∧
  trace (take_fault st).2 = trace st.
Proof. unfold take_fault. by destruct (faults (Store st)). Qed.

(** What a successful [SetActor] leaves behind. *)
Lemma SetActor_inr_inv addr act st st' :
  SetActor addr act st = (inr tt, st') →
  ∃ iaddr st1,
    LookupID addr st = (inr iaddr, st1) ∧
    idCache st' = idCache st1 ∧ heap st' = heap st1 ∧
    stored st' = stored st1 ∧ snapshot st' = snapshot st1 ∧
    if decide (actorcache st1 !! iaddr = Some act)
    then st' = st1
    else actorcache st' = <[iaddr := act]> (actorcache st1) ∧
         root st' = <[address.Bytes iaddr := heap st1 !!! act]> (root st1).
Proof.
  rewrite SetActor_unfold.
  destruct (LookupID addr st) as [[err|iaddr] st1] eqn:HL; [done|].
  intros H. exists iaddr, st1. split; [done|].
  destruct (decide _) as [Hc|Hc].
  - by injection H as <-.
  - rewrite root_Set_unfold in H.
    destruct (take_fault _) as [[msg|] st2] eqn:Hf; simpl in H; [done|].
    injection H as <-. simpl.
    pose proof (take_fault_fields (set_actorcache (<[iaddr:=act]> (actorcache st1)) st1)) as Hfs.
    rewrite Hf in Hfs. simpl in Hfs. destruct Hfs as (Hr & Hs & Ha & Hn & Hi & Hh & Ht).
    unfold stored in *. simpl in *. by rewrite Hs, Ha, Hn, Hi, Hh.
Qed.

(** ** The constructor *)

Lemma NewStateTree_empty_store : NewStateTree empty_store = inr fresh_tree.
Proof. reflexivity. Qed.

Lemma NewStateTree_succeeds cst :
  NewStateTree cst = inr (mkStateTree ∅ cst ∅ cid.Undef [] ∅ []).
Proof. reflexivity. Qed.

(** ** C4: resolution of a canonical address *)

(** C4, as amended.  For an address already in ID form, in a tree whose
    identifier cache holds no ID-form key (the resolver only inserts other
    forms), [LookupID] returns the address unchanged.  It does consult the
    identifier cache first: that one lookup, a miss which leaves the cache
    as it was, is the only collaborator call; the trie and the store are
    not accessed and the state is unchanged but for the log entry. *)
Theorem LookupID_canonical addr st :
  address.Protocol addr = address.ID →
  canonical_free (idCache st) = true →
  LookupID addr st = (inr addr, log (IdCacheGet addr, None) st).
Proof.
  intros Hp Hc. apply LookupID_miss_ID; [|done]. by apply canonical_free_lookup.
Qed.

Lemma LookupID_canonical_witness :
  LookupID id7 (set_idCache [(bls42, id100)] genesis_tree)
  = (inr id7, log (IdCacheGet id7, None) (set_idCache [(bls42, id100)] genesis_tree)).
Proof. apply (LookupID_canonical id7); reflexivity. Defined.

(** C4 as stated fails: resolving a canonical address is not free of
    identifier-cache accesses. *)
Lemma LookupID_canonical_consults_idCache :
  result (LookupID id7) fresh_tree = inr id7 ∧
  existsb (λ ev, touches_idCache ev.1) (trace (exec (LookupID id7) fresh_tree)) = true.
Proof. split; reflexivity. Qed.

(** ** C9: a failed revert changes nothing *)

Lemma hamt_LoadNode_unfold c st :
  hamt_LoadNode c st =
    match (take_fault st).1 with
    | Some msg => (inl (ErrStore msg), log (LoadNode c, Some (ErrStore msg)) (take_fault st).2)
    | None =>
        match store.get c (stored st) with
        | Some (NodeBlock n) => (inr n, log (LoadNode c, None) (take_fault st).2)
        | Some (InitBlock _) =>
            (inl (ErrStore "cbor: unexpected block"),
             log (LoadNode c, Some (ErrStore "cbor: unexpected block")) (take_fault st).2)
        | None =>
            (inl (ErrStore "blockstore: block not found"),
             log (LoadNode c, Some (ErrStore "blockstore: block not found")) (take_fault st).2)
        end
    end.
Proof.
  unfold hamt_LoadNode. rewrite storage_call_unfold.
  destruct (take_fault_fields st) as (_ & Hs & _). unfold stored in *. rewrite Hs.
  destruct (take_fault st).1; [done|]. simpl.
  by destruct (store.get c (blocks (Store st))) as [[n|s]|].
Qed.

Lemma Revert_unfold st :
  Revert st =
    match hamt_LoadNode (snapshot st) st with
    | (inl e, st1) => (inl e, st1)
    | (inr nd, st1) => (inr tt, set_root nd (log (IdCachePurge, None) (set_idCache [] st1)))
    end.
Proof.
  unfold Revert. unfold bind at 1. unfold gets at 1. unfold bind at 1.
  by destruct (hamt_LoadNode (snapshot st) st) as [[e|nd] st1].
Qed.

(** C9.  If loading the snapshot root fails, [Revert] returns the error
    and the trie root, the actor cache and the identifier cache (and the
    snapshot reference, the stored blocks and the heap) are what they
    were; and loading does fail when no snapshot was ever taken, the
    snapshot reference then being the undefined CID that [NewStateTree]
    leaves in place. *)
Theorem Revert_failure_atomic st :
  (∀ e st', Revert st = (inl e, st') →
     root st' = root st ∧ actorcache st' = actorcache st ∧ idCache st' = idCache st ∧
     snapshot st' = snapshot st ∧ stored st' = stored st ∧ heap st' = heap st) ∧
  (snapshot st = cid.Undef → ∃ e st', Revert st = (inl e, st')) ∧
  (∀ cst, NewStateTree cst = inr st → snapshot st = cid.Undef).
Proof.
  split; [|split].
  - intros e st'. rewrite Revert_unfold, hamt_LoadNode_unfold.
    destruct (take_fault_fields st) as (Hr & Hs & Ha & Hn & Hi & Hh & _).
    destruct (take_fault st).1.
    + intros [= <- <-]. simpl. unfold stored in *. simpl. done.
    + destruct (store.get _ _) as [[n|s]|]; intros [= <- <-]; simpl;
        unfold stored in *; simpl; done.
  - intros Hu. rewrite Revert_unfold, hamt_LoadNode_unfold, Hu. simpl.
    destruct (take_fault st).1; eauto.
  - intros cst. rewrite NewStateTree_succeeds. by intros [= <-].
Qed.

Lemma Revert_failure_atomic_witness :
  ∃ e st', Revert fresh_tree = (inl e, st') ∧
           root st' = root fresh_tree ∧ actorcache st' = actorcache fresh_tree ∧
           idCache st' = idCache fresh_tree.
Proof.
  destruct (Revert_failure_atomic fresh_tree) as (Hkeep & Hfail & Hnew).
  destruct (Hfail (Hnew empty_store eq_refl)) as (e & st' & Hrev).
  exists e, st'. split; [exact Hrev|].
  destruct (Hkeep e st' Hrev) as (Hr & Ha & Hi & _). auto.
Defined.

(** ** C7: a record set is the record got *)

(** The handle set is the handle got, whatever branch [SetActor] took. *)
Lemma SetActor_visible addr act st st' :
  addr ≠ address.Undef →
  SetActor addr act st = (inr tt, st') →
  ∃ c, GetActor addr st' = (inr act, log (IdCacheGet addr, None) (set_idCache c st')).
Proof.
  intros Hu H.
  apply SetActor_inr_inv in H as (iaddr & st1 & HL & Hi & Hh & _ & _ & H).
  destruct (LookupID_again _ _ _ _ st' HL Hi) as (c & HL').
  exists c.
  apply (GetActor_cached _ iaddr); [done|exact HL'|]. simpl.
  destruct (decide _) as [Hc|Hc]; [by subst|].
  destruct H as (-> & _). by rewrite lookup_insert_eq.
Qed.

(** C7, as amended.  For every address other than the undefined address
    and every record handle, after a successful [SetActor] an immediate
    [GetActor] of the same address returns that handle, before any flush,
    and the record behind it reads as it did. *)
Theorem GetActor_after_SetActor addr act st st' :
  addr ≠ address.Undef →
  SetActor addr act st = (inr tt, st') →
  ∃ st'', GetActor addr st' = (inr act, st'') ∧
          result (load act) st'' = result (load act) st'.
Proof.
  intros Hu H. destruct (SetActor_visible _ _ _ _ Hu H) as (c & HG).
  eexists. split; [exact HG|]. reflexivity.
Qed.

Lemma GetActor_after_SetActor_witness :
  ∃ st'', GetActor id7 (exec (SetActor id7 2%N) genesis_plus) = (inr 2%N, st'') ∧
          result (load 2%N) st'' = result (load 2%N) (exec (SetActor id7 2%N) genesis_plus).
Proof.
  apply (GetActor_after_SetActor id7 2%N genesis_plus); [discriminate | reflexivity].
Defined.

(** C7 as stated fails at the undefined address. *)
Lemma SetActor_GetActor_undefined :
  result (LookupID address.Undef) undef_registered = inr id100 ∧
  result (SetActor address.Undef 1%N) undef_registered = inr tt ∧
  result (GetActor address.Undef) (exec (SetActor address.Undef 1%N) undef_registered)
  = inl ErrUndefinedAddress.
Proof. repeat split; vm_compute; reflexivity. Qed.

(** ** C10: a failing mutation is not undone *)

(** Any callback that fails without touching the two caches: the error
    is returned as it is, and the handle the callback was given is still
    what [GetActor] returns, with the heap as the callback left it. *)
Lemma MutateActor_failing_callback {A} addr (f : loc → M A) e st act st1 st2 :
  GetActor addr st = (inr act, st1) →
  f act st1 = (inl e, st2) →
  idCache st2 = idCache st1 → actorcache st2 = actorcache st1 →
  MutateActor addr f st = (inl e, st2) ∧
  ∃ c, GetActor addr st2 = (inr act, log (IdCacheGet addr, None) (set_idCache c st2)).
Proof.
  intros HG Hf Hi Ha. split.
  { unfold MutateActor. erewrite bind_inr by exact HG. by erewrite bind_inl by exact Hf. }
  apply GetActor_inr_inv in HG as (Hu & iaddr & st0 & HL & Hc & Hi0).
  destruct (LookupID_again _ _ _ _ st2 HL) as (c & HL'); [congruence|].
  exists c. apply (GetActor_cached _ iaddr); [done|exact HL'|]. simpl. congruence.
Qed.

(** C10.  When [f] rewrites its argument and then returns an error,
    [MutateActor] returns that error and a later [GetActor] of the same
    address returns the same handle, whose record is as [f] left it: [f]
    worked on the cached record itself. *)
Theorem MutateActor_error_keeps_mutation addr g e st act st1 :
  GetActor addr st = (inr act, st1) →
  ∃ st2 st3,
    MutateActor addr (mutate_then_fail g e) st = (inl e, st2) ∧
    GetActor addr st2 = (inr act, st3) ∧
    heap st3 !!! act = g (heap st1 !!! act).
Proof.
  intros HG.
  destruct (MutateActor_failing_callback addr (mutate_then_fail g e) e st act st1
              (set_heap (<[act := g (heap st1 !!! act)]> (heap st1)) st1) HG)
    as (HM & c & HG'); [reflexivity..|].
  eexists _, _. split; [exact HM|]. split; [exact HG'|].
  simpl. by rewrite lookup_total_insert_eq.
Qed.

Lemma MutateActor_error_keeps_mutation_witness :
  ∃ st2 st3,
    MutateActor id7 (mutate_then_fail (with_Nonce 9) (ErrCaller "no")) genesis_tree
    = (inl (ErrCaller "no"), st2) ∧
    GetActor id7 st2 = (inr 1%N, st3) ∧
    heap st3 !!! 1%N = with_Nonce 9 (heap (exec (GetActor id7) genesis_tree) !!! 1%N).
Proof.
  apply (MutateActor_error_keeps_mutation id7 (with_Nonce 9) (ErrCaller "no")
           genesis_tree 1%N (exec (GetActor id7) genesis_tree)).
  vm_compute. reflexivity.
Defined.

(** ** C2: where a set record goes *)

(** C2, as amended.  A successful [SetActor] leaves the record handle in
    the actor cache under the resolved address.  Unless the cache already
    held that very handle there (then nothing else changes), it also
    writes the record into the in-memory trie at once, under the address's
    byte key.  The write is visible to [GetActor] immediately (for a
    defined address).  No block is written to the store and the snapshot
    reference stays: a root reference covering the write only comes with a
    flush. *)
Theorem SetActor_effect addr act st st' :
  SetActor addr act st = (inr tt, st') →
  ∃ iaddr st1,
    LookupID addr st = (inr iaddr, st1) ∧
    actorcache st' !! iaddr = Some act ∧
    (if decide (actorcache st1 !! iaddr = Some act)
     then actorcache st' = actorcache st1 ∧ root st' = root st
     else actorcache st' = <[iaddr := act]> (actorcache st1) ∧
          root st' = <[address.Bytes iaddr := heap st' !!! act]> (root st)) ∧
    stored st' = stored st ∧ snapshot st' = snapshot st ∧
    (addr ≠ address.Undef → ∃ st'', GetActor addr st' = (inr act, st'')).
Proof.
  intros H. pose proof H as H'.
  apply SetActor_inr_inv in H' as (iaddr & st1 & HL & Hi & Hh & Hs & Hn & Hc).
  pose proof (preserves_LookupID (keeps root) addr _ _ _ HL) as Hr1.
  pose proof (preserves_LookupID (keeps stored) addr _ _ _ HL) as Hs1.
  pose proof (preserves_LookupID (keeps snapshot) addr _ _ _ HL) as Hn1.
  unfold keeps in *.
  exists iaddr, st1. split; [done|].
  split; [|split; [|split; [congruence|split; [congruence|]]]].
  - destruct (decide _) as [Hh'|Hh']; [by subst|].
    destruct Hc as (-> & _). by rewrite lookup_insert_eq.
  - destruct (decide _) as [Hh'|Hh']; [by subst|].
    destruct Hc as (-> & ->). by rewrite Hh, Hr1.
  - intros Hu. destruct (SetActor_visible _ _ _ _ Hu H) as (c & HG). eauto.
Qed.

Lemma SetActor_effect_witness :
  ∃ iaddr st1,
    LookupID id7 genesis_plus = (inr iaddr, st1) ∧
    actorcache (exec (SetActor id7 2%N) genesis_plus) !! iaddr = Some 2%N ∧
    (if decide (actorcache st1 !! iaddr = Some 2%N)
     then actorcache (exec (SetActor id7 2%N) genesis_plus) = actorcache st1 ∧
          root (exec (SetActor id7 2%N) genesis_plus) = root genesis_plus
     else actorcache (exec (SetActor id7 2%N) genesis_plus) = <[iaddr := 2%N]> (actorcache st1) ∧
          root (exec (SetActor id7 2%N) genesis_plus)
          = <[address.Bytes iaddr := heap (exec (SetActor id7 2%N) genesis_plus) !!! 2%N]>
              (root genesis_plus)) ∧
    stored (exec (SetActor id7 2%N) genesis_plus) = stored genesis_plus ∧
    snapshot (exec (SetActor id7 2%N) genesis_plus) = snapshot genesis_plus ∧
    (id7 ≠ address.Undef →
     ∃ st'', GetActor id7 (exec (SetActor id7 2%N) genesis_plus) = (inr 2%N, st'')).
Proof. apply (SetActor_effect id7 2%N genesis_plus). reflexivity. Defined.

(** C2 as stated fails: without any flush the trie already holds the
    record that was set. *)
Lemma SetActor_writes_trie :
  result (SetActor id7 2%N) genesis_plus = inr tt ∧
  root genesis_plus !! address.Bytes id7 = Some (account 0) ∧
  root (exec (SetActor id7 2%N) genesis_plus) !! address.Bytes id7 = Some (account 1).
Proof. repeat split; vm_compute; reflexivity. Qed.

(** ** The store: content addressing *)

Lemma store_put_get b bs c bs' :
  store.put b bs = (c, bs') → store.get c bs' = Some b.
Proof.
  unfold store.put. destruct (list_find _ bs) as [[i b']|] eqn:E.
  - intros [= <- <-]. apply list_find_Some in E as (Hi & -> & _). done.
  - intros [= <- <-]. simpl. by rewrite lookup_app_r, Nat.sub_diag.
Qed.

(** Putting the same content again gives the same reference and writes
    nothing. *)
Lemma store_put_again b bs c bs' :
  store.put b bs = (c, bs') → store.put b bs' = (c, bs').
Proof.
  unfold store.put. destruct (list_find _ bs) as [[i b']|] eqn:E.
  - intros [= <- <-]. by rewrite E.
  - intros [= <- <-].
    assert (list_find (λ b', b' = b) (bs ++ [b]) = Some (length bs, b)) as ->; [|done].
    apply list_find_Some. split; [|split; [done|]].
    + by rewrite lookup_app_r, Nat.sub_diag.
    + intros j y Hj Hlt ->. rewrite lookup_app_l in Hj by done.
      apply list_find_None in E. rewrite Forall_forall in E.
      apply (E b); [|done]. by eapply list_elem_of_lookup_2.
Qed.

(** Blocks are never altered: a reference that resolved still resolves to
    the same block. *)
Lemma store_put_keeps b bs c bs' c0 b0 :
  store.put b bs = (c, bs') → store.get c0 bs = Some b0 → store.get c0 bs' = Some b0.
Proof.
  unfold store.put. destruct (list_find _ bs) as [[i b']|] eqn:E.
  - by intros [= <- <-].
  - intros [= <- <-]. destruct c0 as [|i]; simpl; [done|].
    intros Hi. by apply lookup_app_l_Some.
Qed.

Lemma Store_Put_unfold b st :
  Store_Put b st =
    match (take_fault st).1 with
    | Some msg => (inl (ErrStore msg), log (StorePut, Some (ErrStore msg)) (take_fault st).2)
    | None =>
        (inr (store.put b (stored st)).1,
         log (StorePut, None)
           (set_Store (mkStore (store.put b (stored st)).2 (faults (Store (take_fault st).2)))
              (take_fault st).2))
    end.
Proof.
  unfold Store_Put. rewrite storage_call_unfold.
  destruct (take_fault_fields st) as (_ & Hs & _). unfold stored in *. rewrite Hs.
  destruct (take_fault st).1; [done|].
  by destruct (store.put b (blocks (Store st))).
Qed.

Lemma root_Flush_unfold st :
  root_Flush st =
    match (take_fault st).1 with
    | Some msg => (inl (ErrStore msg), log (NodeFlush, Some (ErrStore msg)) (take_fault st).2)
    | None => (inr tt, log (NodeFlush, None) (take_fault st).2)
    end.
Proof.
  unfold root_Flush. rewrite storage_call_unfold. by destruct (take_fault st).1.
Qed.

(** ** The write loop of [Flush] *)

Lemma write_over_other h order r k :
  (∀ a p, (a, p) ∈ order → address.Bytes a ≠ k) →
  write_over h r order !! k = r !! k.
Proof.
  revert r. induction order as [|[a p] order IH]; intros r Hk; simpl; [done|].
  rewrite IH.
  - apply lookup_insert_ne. apply (Hk a p). left.
  - intros a' p' Hin. apply (Hk a' p'). by right.
Qed.

Lemma write_over_entry h order r a p :
  NoDup order.*1 → (a, p) ∈ order →
  write_over h r order !! address.Bytes a = Some (h !!! p).
Proof.
  revert r. induction order as [|[a' p'] order IH]; intros r Hnd Hin; simpl.
  - by apply elem_of_nil in Hin.
  - apply NoDup_cons in Hnd as [Hfresh Hnd].
    apply elem_of_cons in Hin as [[= -> ->]|Hin]; [|by apply IH].
    rewrite write_over_other; [by rewrite lookup_insert_eq|].
    intros a'' p'' Hin Heq. apply (inj address.Bytes) in Heq as ->.
    apply Hfresh. simpl. apply list_elem_of_fmap. by exists (a', p'').
Qed.

Lemma write_over_all_written st order :
  order ≡ₚ map_to_list (actorcache st) →
  all_written st (write_over (heap st) (root st) order).
Proof.
  intros Hp. split.
  - intros a p Ha. apply write_over_entry.
    + rewrite Hp. apply NoDup_fst_map_to_list.
    + rewrite Hp. by apply elem_of_map_to_list.
  - intros k Hk. apply write_over_other. intros a p Hin.
    rewrite Hp in Hin. apply elem_of_map_to_list in Hin. apply Hk. by exists p.
Qed.

(** The loop either writes every entry, or stops at the first write that
    fails; it changes nothing but the trie. *)
Lemma write_entries_result order st r st' :
  write_entries order st = (r, st') →
  actorcache st' = actorcache st ∧ idCache st' = idCache st ∧
  snapshot st' = snapshot st ∧ heap st' = heap st ∧ stored st' = stored st ∧
  match r with
  | inr _ => root st' = write_over (heap st) (root st) order
  | inl e => ∃ k tl, trace st' = (NodeSet k, Some e) :: tl
  end.
Proof.
  intros H.
  pose proof (preserves_write_entries (keeps actorcache) order _ _ _ H).
  pose proof (preserves_write_entries (keeps idCache) order _ _ _ H).
  pose proof (preserves_write_entries (keeps snapshot) order _ _ _ H).
  pose proof (preserves_write_entries (keeps heap) order _ _ _ H).
  pose proof (preserves_write_entries (keeps stored) order _ _ _ H).
  repeat (split; [done|]). clear -H.
  revert st H. induction order as [|[a p] order IH]; intros st H; simpl in H.
  - by injection H as <- <-.
  - unfold bind at 1 in H. unfold load, gets in H. unfold bind at 1 in H.
    rewrite root_Set_unfold in H.
    destruct (take_fault_fields st) as (_ & _ & _ & _ & _ & Hh & _).
    destruct (take_fault st).1.
    + injection H as <- <-. simpl. eauto.
    + apply IH in H. simpl in H. rewrite Hh in H. exact H.
Qed.

(** ** Flush *)

Lemma Flush_range_unfold order st :
  Flush_range order st =
    match write_entries order st with
    | (inl e, st1) => (inl e, st1)
    | (inr _, st1) =>
        match root_Flush (set_actorcache ∅ st1) with
        | (inl e, st2) => (inl e, st2)
        | (inr _, st2) => Store_Put (NodeBlock (root st2)) st2
        end
    end.
Proof.
  unfold Flush_range. unfold bind at 1.
  destruct (write_entries order st) as [[e|[]] st1]; [done|].
  unfold bind at 1. unfold modify at 1. unfold bind at 1.
  destruct (root_Flush _) as [[e|[]] st2]; [done|].
  unfold bind at 1. by unfold gets at 1.
Qed.

(** The three ways a flush can end, told apart by the call that failed. *)
Lemma Flush_range_cases order st r st' :
  Flush_range order st = (r, st') →
  idCache st' = idCache st ∧ snapshot st' = snapshot st ∧ heap st' = heap st ∧
  match r with
  | inr c =>
      root st' = write_over (heap st) (root st) order ∧ actorcache st' = ∅ ∧
      store.put (NodeBlock (root st')) (stored st) = (c, stored st')
  | inl e =>
      stored st' = stored st ∧
      ((∃ k tl, trace st' = (NodeSet k, Some e) :: tl ∧ actorcache st' = actorcache st) ∨
       (∃ c tl, trace st' = (c, Some e) :: tl ∧ (c = NodeFlush ∨ c = StorePut) ∧
                actorcache st' = ∅ ∧ root st' = write_over (heap st) (root st) order))
  end.
Proof.
  rewrite Flush_range_unfold.
  destruct (write_entries order st) as [[e|[]] st1] eqn:Hw;
    apply write_entries_result in Hw as (Ha & Hi & Hn & Hh & Hs & Hw).
  { intros [= <- <-]. destruct Hw as (k & tl & Ht). repeat (split; [done|]). left. eauto. }
  rewrite root_Flush_unfold.
  destruct (take_fault_fields (set_actorcache ∅ st1)) as (Hr2 & Hs2 & Ha2 & Hn2 & Hi2 & Hh2 & _).
  simpl in *.
  destruct (take_fault (set_actorcache ∅ st1)) as [[msg|] st2]; simpl in *.
  { intros [= <- <-]. simpl. unfold stored in *. simpl in *.
    repeat (split; [congruence|]). right. exists NodeFlush. eexists.
    repeat (split; [eauto; congruence|]). congruence. }
  rewrite Store_Put_unfold. simpl.
  destruct (take_fault_fields (log (NodeFlush, None) st2))
    as (Hr3 & Hs3 & Ha3 & Hn3 & Hi3 & Hh3 & _).
  simpl in *.
  destruct (take_fault (log (NodeFlush, None) st2)) as [[msg|] st3]; simpl in *.
  { intros [= <- <-]. simpl. unfold stored in *. simpl in *.
    repeat (split; [congruence|]). right. exists StorePut. eexists.
    repeat (split; [eauto; congruence|]). congruence. }
  intros [= <- <-]. simpl. unfold stored in *. simpl in *.
  repeat (split; [congruence|]).
  rewrite Hr3, Hr2, Hw, Hs2, Hs. apply surjective_pairing.
Qed.

(** ** C3: how far a failed flush got *)

(** C3, as amended.  [Flush] either writes every cached actor into the
    trie, clears the actor cache and returns a reference under which the
    store holds that trie; or it fails, and then one of two things
    happened.  If a trie write failed, the actor cache is not cleared (the
    trie may already hold the writes made before the failure).  If the
    persist step failed (the trie's own flush, or the store's put), the
    actor cache has already been cleared and the trie holds every cached
    write.  In both cases nothing was written to the store. *)
Theorem Flush_range_outcomes order st r st' :
  order ≡ₚ map_to_list (actorcache st) →
  Flush_range order st = (r, st') →
  match r with
  | inr c =>
      all_written st (root st') ∧ actorcache st' = ∅ ∧
      store.get c (stored st') = Some (NodeBlock (root st'))
  | inl e =>
      stored st' = stored st ∧
      ((∃ k tl, trace st' = (NodeSet k, Some e) :: tl ∧ actorcache st' = actorcache st) ∨
       (∃ c tl, trace st' = (c, Some e) :: tl ∧ (c = NodeFlush ∨ c = StorePut) ∧
                actorcache st' = ∅ ∧ all_written st (root st')))
  end.
Proof.
  intros Hp H. apply Flush_range_cases in H as (_ & _ & _ & H).
  pose proof (write_over_all_written st order Hp) as Hall.
  destruct r as [e|c].
  - destruct H as (Hs & [H|(c & tl & Ht & Hc & Ha & Hr)]); split; auto.
    right. exists c, tl. by rewrite Hr.
  - destruct H as (Hr & Ha & Hput). rewrite Hr at 1.
    split; [done|]. split; [done|]. by eapply store_put_get.
Qed.

Lemma Flush_range_outcomes_witness :
  stored (exec Flush failing_flush) = stored failing_flush ∧
  ((∃ k tl, trace (exec Flush failing_flush) = (NodeSet k, Some (ErrStore "disk full")) :: tl ∧
            actorcache (exec Flush failing_flush) = actorcache failing_flush) ∨
   (∃ c tl, trace (exec Flush failing_flush) = (c, Some (ErrStore "disk full")) :: tl ∧
            (c = NodeFlush ∨ c = StorePut) ∧
            actorcache (exec Flush failing_flush) = ∅ ∧
            all_written failing_flush (root (exec Flush failing_flush)))).
Proof.
  apply (Flush_range_outcomes (map_to_list (actorcache failing_flush)) failing_flush
           (inl (ErrStore "disk full"))).
  - reflexivity.
  - vm_compute. reflexivity.
Defined.

(** C3 as stated fails: when the persist step fails the flush returns an
    error although the cache has been cleared and the trie rewritten. *)
Lemma Flush_failure_not_atomic :
  result Flush failing_flush = inl (ErrStore "disk full") ∧
  actorcache failing_flush !! id7 = Some 1%N ∧
  actorcache (exec Flush failing_flush) !! id7 = None ∧
  root failing_flush !! address.Bytes id7 = Some (account 0) ∧
  root (exec Flush failing_flush) !! address.Bytes id7 = Some (account 8).
Proof. repeat split; vm_compute; reflexivity. Qed.

(** ** C8: flushing twice *)

Lemma fault_free_take st :
  fault_free st → (take_fault st).1 = None ∧ fault_free (take_fault st).2.
Proof.
  unfold fault_free, take_fault. destruct (faults (Store st)) as [|f fs] eqn:E.
  - intros _. simpl. by rewrite E.
  - intros [-> Hfs]%Forall_cons. done.
Qed.

Lemma write_entries_fault_free order st :
  fault_free st → ∃ st', write_entries order st = (inr tt, st') ∧ fault_free st'.
Proof.
  revert st. induction order as [|[a p] order IH]; intros st Hf; simpl.
  - by exists st.
  - unfold bind at 1. unfold load, gets. unfold bind at 1. rewrite root_Set_unfold.
    destruct (fault_free_take st Hf) as (-> & Hf'). apply IH. exact Hf'.
Qed.

(** Without scripted failures a flush succeeds, and the script stays
    free of failures. *)
Lemma Flush_range_fault_free order st :
  fault_free st → ∃ c st', Flush_range order st = (inr c, st') ∧ fault_free st'.
Proof.
  intros Hf. rewrite Flush_range_unfold.
  destruct (write_entries_fault_free order st Hf) as (st1 & -> & Hf1).
  rewrite root_Flush_unfold.
  destruct (fault_free_take (set_actorcache ∅ st1) Hf1) as (-> & Hf2).
  rewrite Store_Put_unfold.
  destruct (fault_free_take (log (NodeFlush, None) (take_fault (set_actorcache ∅ st1)).2) Hf2)
    as (-> & Hf3).
  eexists _, _. split; [reflexivity|]. exact Hf3.
Qed.

(** A second flush that succeeds returns the reference of the first. *)
Lemma Flush_again_same order st c st1 c' st2 :
  Flush_range order st = (inr c, st1) → Flush st1 = (inr c', st2) → c' = c.
Proof.
  intros H1 H2. apply Flush_range_cases in H1 as (_ & _ & _ & Hr1 & Ha1 & Hput1).
  unfold Flush in H2. apply Flush_range_cases in H2 as (_ & _ & _ & Hr2 & _ & Hput2).
  rewrite Ha1, map_to_list_empty in Hr2. simpl in Hr2. rewrite Hr2 in Hput2.
  apply store_put_again in Hput1. rewrite Hput1 in Hput2. by injection Hput2 as <- _.
Qed.

(** C8.  Whatever order the first flush ranges over the cache in: when
    the storage layer does not fail, two flushes in a row both succeed and
    return the same root reference; and in any case a second flush that
    succeeds returns the reference the first one returned. *)
Theorem Flush_idempotent order st :
  (fault_free st →
   ∃ c st1 st2, Flush_range order st = (inr c, st1) ∧ Flush st1 = (inr c, st2)) ∧
  (∀ c st1 c' st2,
     Flush_range order st = (inr c, st1) → Flush st1 = (inr c', st2) → c' = c).
Proof.
  split.
  - intros Hf. destruct (Flush_range_fault_free order st Hf) as (c & st1 & H1 & Hf1).
    destruct (Flush_range_fault_free (map_to_list (actorcache st1)) st1 Hf1)
      as (c' & st2 & H2 & _).
    exists c, st1, st2. split; [done|].
    rewrite (Flush_again_same _ _ _ _ _ _ H1 H2) in H2. exact H2.
  - intros c st1 c' st2. apply Flush_again_same.
Qed.

Lemma Flush_idempotent_witness :
  ∃ c st1 st2, Flush dirty_tree = (inr c, st1) ∧ Flush st1 = (inr c, st2).
Proof.
  apply (proj1 (Flush_idempotent (map_to_list (actorcache dirty_tree)) dirty_tree)).
  apply Forall_nil. exact I.
Defined.

(** ** C6: registration does not roll back the allocation *)

Lemma storage_call_inr_inv {A} c (op : StateTree → Result A * StateTree) st a st' :
  storage_call c op st = (inr a, st') →
  ∃ st2, op (take_fault st).2 = (inr a, st2) ∧ st' = log (c, None) st2.
Proof.
  rewrite storage_call_unfold. destruct (take_fault st).1; [done|].
  destruct (op (take_fault st).2) as [r st2]. simpl. intros [= -> <-]. eauto.
Qed.

Lemma Store_Get_inr_inv c st s st' :
  Store_Get c st = (inr s, st') → store.get c (stored st) = Some (InitBlock s).
Proof.
  intros (st2 & H & _)%storage_call_inr_inv.
  destruct (take_fault_fields st) as (_ & Hs & _). unfold stored in *. rewrite Hs in H.
  by destruct (store.get c (blocks (Store st))) as [[n|s']|]; simplify_eq.
Qed.

Lemma ias_AddActor_inr_inv s addr st r st' :
  ias_AddActor s addr st = (inr r, st') → ias.AddActor s addr = inr r.
Proof. intros (st2 & H & _)%storage_call_inr_inv. by injection H. Qed.

Lemma Store_Put_inr_inv b st c st' :
  Store_Put b st = (inr c, st') → store.put b (stored st) = (c, stored st').
Proof.
  rewrite Store_Put_unfold. destruct (take_fault st).1; [done|].
  intros [= <- <-]. unfold stored. simpl. apply surjective_pairing.
Qed.

(** What the closure leaves behind when it succeeds: the minted address is
    bound in a table block of the store, and the init actor's record now
    points to that block. *)
Lemma RegisterNewAddress_func_inr_inv addr initact st out st' :
  RegisterNewAddress_func addr initact st = (inr out, st') →
  actorcache st' = actorcache st ∧ idCache st' = idCache st ∧
  ∃ s' id,
    out = address.NewIDAddress id ∧
    AddressMap s' !! address.Bytes addr = Some id ∧
    store.get (Head (heap st' !!! initact)) (stored st') = Some (InitBlock s').
Proof.
  intros H.
  assert (preserves (rel_and (keeps actorcache) (keeps idCache))
            (RegisterNewAddress_func addr initact)) as Hk.
  { unfold RegisterNewAddress_func. frame. }
  destruct (Hk _ _ _ H) as [Ha Hi]. split; [done|]. split; [done|]. clear Hk Ha Hi.
  unfold RegisterNewAddress_func in H.
  apply bind_inr_inv in H as (a & st1 & _ & H).
  apply bind_inr_inv in H as (s & st2 & _ & H).
  apply bind_inr_inv in H as ([out' s'] & st3 & Hadd & H).
  apply bind_inr_inv in H as (ncid & st4 & Hput & H).
  apply bind_inr_inv in H as (a' & st5 & Hload & H).
  apply bind_inr_inv in H as ([] & st6 & Hst & H).
  injection H as <- <-. injection Hst as <-. injection Hload as <- <-.
  apply Store_Put_inr_inv, store_put_get in Hput.
  apply ias_AddActor_inr_inv in Hadd. unfold ias.AddActor in Hadd.
  destruct (AddressMap s !! address.Bytes addr); [done|]. injection Hadd as <- <-.
  simpl in Hput.
  exists (mkInitActorState (<[address.Bytes addr := NextID s]> (AddressMap s))
            (uint64_succ (NextID s))), (NextID s).
  split; [done|]. split; [apply lookup_insert_eq|].
  simpl. rewrite lookup_total_insert_eq. exact Hput.
Qed.

(** What a failed [SetActor] leaves behind: either resolution failed, or
    the trie write did, after the cache entry had been replaced. *)
Lemma SetActor_inl_inv addr act st e st' :
  SetActor addr act st = (inl e, st') →
  (∃ e0, LookupID addr st = (inl e0, st') ∧ e = Errorf "ID lookup failed" e0) ∨
  (∃ iaddr st1 msg,
     LookupID addr st = (inr iaddr, st1) ∧ e = ErrStore msg ∧
     actorcache st' = <[iaddr := act]> (actorcache st1) ∧
     root st' = root st1 ∧ heap st' = heap st1 ∧ stored st' = stored st1 ∧
     idCache st' = idCache st1).
Proof.
  rewrite SetActor_unfold.
  destruct (LookupID addr st) as [[e0|iaddr] st1] eqn:HL.
  - intros [= <- <-]. left. eauto.
  - destruct (decide _); [done|]. rewrite root_Set_unfold.
    destruct (take_fault_fields (set_actorcache (<[iaddr:=act]> (actorcache st1)) st1))
      as (Hr & Hs & Ha & _ & Hi & Hh & _).
    destruct (take_fault _).1 as [msg|]; [|done].
    intros [= <- <-]. right. exists iaddr, st1, msg. simpl. unfold stored in *. simpl in *.
    by rewrite Hr, Hs, Ha, Hi, Hh.
Qed.

(** C6, as amended.  In [RegisterNewAddress], suppose the init actor's
    mutation went through, minting [out], that [out] is not the init
    actor's own address, and that the final [SetActor] of the supplied
    record under [out] fails.  Then
    [RegisterNewAddress] returns that error, and the allocation stands:
    the actor cache still holds the init actor's record, its head now
    refers to a table in which the address is bound to [out], and
    [GetActor] returns that record. *)
Theorem RegisterNewAddress_allocation_survives addr act st out st1 e st2 :
  canonical_free (idCache st) = true →
  MutateActor InitAddress (RegisterNewAddress_func addr) st = (inr out, st1) →
  out ≠ InitAddress →
  SetActor out act st1 = (inl e, st2) →
  RegisterNewAddress addr act st = (inl e, st2) ∧
  ∃ initact s' id st3,
    actorcache st2 !! InitAddress = Some initact ∧
    store.get (Head (heap st2 !!! initact)) (stored st2) = Some (InitBlock s') ∧
    AddressMap s' !! address.Bytes addr = Some id ∧ out = address.NewIDAddress id ∧
    GetActor InitAddress st2 = (inr initact, st3).
Proof.
  intros Hcan HM Hne HS. split.
  { unfold RegisterNewAddress. erewrite bind_inr by exact HM.
    by erewrite bind_inl by exact HS. }
  unfold MutateActor in HM.
  apply bind_inr_inv in HM as (initact & sta & HG & HM).
  apply bind_inr_inv in HM as (out' & stb & Hf & HM).
  apply bind_inr_inv in HM as ([] & stc & HSI & HM). injection HM as -> ->.
  (* the init actor's record is cached under its own address *)
  pose proof (preserves_GetActor canonical_kept InitAddress _ _ _ HG Hcan) as Hcana.
  apply GetActor_inr_inv in HG as (_ & iaddr & st0 & HL & Hca & Hia).
  rewrite (LookupID_miss_ID InitAddress st) in HL
    by (by try apply canonical_free_lookup).
  injection HL as <- <-.
  (* the closure *)
  assert (canonical_free (idCache stb) = true) as Hcanb.
  { assert (preserves canonical_kept (RegisterNewAddress_func addr initact)) as Hk.
    { unfold RegisterNewAddress_func. frame. }
    by apply (Hk _ _ _ Hf). }
  apply RegisterNewAddress_func_inr_inv in Hf as (Hab & Hib & s' & id & -> & Hs' & Hget).
  (* the write-back of the init actor is the same-handle case *)
  apply SetActor_inr_inv in HSI as (iaddr & stb' & HL & Hi1 & Hh1 & Hs1 & _ & HSI).
  rewrite (LookupID_miss_ID InitAddress stb) in HL
    by (by try apply canonical_free_lookup).
  injection HL as <- <-. simpl in *.
  rewrite decide_True in HSI by congruence. subst st1. simpl in *.
  (* the final write fails after resolution *)
  apply SetActor_inl_inv in HS as [(e0 & HL & _)|(iaddr & st1' & msg & HL & -> & Ha2 & _ & Hh2 & Hs2 & Hi2)].
  { rewrite (LookupID_miss_ID (address.NewIDAddress id)) in HL
      by (by try apply canonical_free_lookup). done. }
  rewrite (LookupID_miss_ID (address.NewIDAddress id)) in HL
    by (by try apply canonical_free_lookup).
  injection HL as <- <-. unfold stored in *. simpl in *.
  assert (actorcache st2 !! InitAddress = Some initact) as Hc2.
  { rewrite Ha2, lookup_insert_ne by done. congruence. }
  exists initact, s', id, (log (IdCacheGet InitAddress, None) st2).
  split; [done|]. split; [by rewrite Hh2, Hs2|]. split; [done|]. split; [done|].
  apply (GetActor_cached _ InitAddress); [done| |exact Hc2].
  apply LookupID_miss_ID; [|done]. apply canonical_free_lookup; [|done]. by rewrite Hi2.
Qed.

Lemma RegisterNewAddress_allocation_survives_witness :
  RegisterNewAddress bls42 2%N failing_registration
  = (inl (ErrStore "io"), exec (RegisterNewAddress bls42 2%N) failing_registration) ∧
  ∃ initact s' id st3,
    actorcache (exec (RegisterNewAddress bls42 2%N) failing_registration) !! InitAddress
    = Some initact ∧
    store.get (Head (heap (exec (RegisterNewAddress bls42 2%N) failing_registration) !!! initact))
      (stored (exec (RegisterNewAddress bls42 2%N) failing_registration))
    = Some (InitBlock s') ∧
    AddressMap s' !! address.Bytes bls42 = Some id ∧ id100 = address.NewIDAddress id ∧
    GetActor InitAddress (exec (RegisterNewAddress bls42 2%N) failing_registration)
    = (inr initact, st3).
Proof.
  apply (RegisterNewAddress_allocation_survives bls42 2%N failing_registration id100
           (exec (MutateActor InitAddress (RegisterNewAddress_func bls42)) failing_registration)
           (ErrStore "io")
           (exec (RegisterNewAddress bls42 2%N) failing_registration)).
  - reflexivity.
  - vm_compute. reflexivity.
  - discriminate.
  - vm_compute. reflexivity.
Defined.

(** C6 as stated fails when the table mints the init actor's own
    identifier.  The init actor's mutation goes through and mints ID 0;
    the final [SetActor] then replaces the cache entry of the init actor
    by the supplied handle before its trie write fails.  After the failed
    registration the actor cache holds, under the init actor's address,
    the supplied record, whose head refers to no table: the init actor's
    updated head is no longer in the actor cache. *)
Lemma RegisterNewAddress_allocation_lost :
  result (MutateActor InitAddress (RegisterNewAddress_func bls42)) failing_zero_registration
  = inr InitAddress ∧
  result (RegisterNewAddress bls42 2%N) failing_zero_registration = inl (ErrStore "io") ∧
  actorcache (exec (RegisterNewAddress bls42 2%N) failing_zero_registration) !! InitAddress
  = Some 2%N ∧
  heap (exec (RegisterNewAddress bls42 2%N) failing_zero_registration) !!! 2%N = account 1 ∧
  result (GetActor InitAddress) (exec (RegisterNewAddress bls42 2%N) failing_zero_registration)
  = inr 2%N ∧
  ¬ ∃ initact s',
      actorcache (exec (RegisterNewAddress bls42 2%N) failing_zero_registration) !! InitAddress
      = Some initact ∧
      store.get
        (Head (heap (exec (RegisterNewAddress bls42 2%N) failing_zero_registration) !!! initact))
        (stored (exec (RegisterNewAddress bls42 2%N) failing_zero_registration))
      = Some (InitBlock s').
Proof.
  repeat split; try (vm_compute; reflexivity).
  intros (initact & s' & H1 & H2).
  vm_compute in H1. injection H1 as <-. vm_compute in H2. discriminate.
Qed.

(** ** The invariant of the identifier cache *)

(** The constructors start with an empty identifier cache and every
    method keeps it free of ID-form keys. *)
Lemma canonical_free_constructors cst c st :
  NewStateTree cst = inr st ∨ LoadStateTree cst c = inr st →
  canonical_free (idCache st) = true.
Proof.
  intros [H|H].
  - rewrite NewStateTree_succeeds in H. by injection H as <-.
  - unfold LoadStateTree in H.
    destruct (hamt_LoadNode c _) as [[e|nd] st1]; [done|].
    simpl in H. by injection H as <-.
Qed.

Lemma canonical_free_methods :
  (∀ addr, preserves canonical_kept (GetActor addr)) ∧
  (∀ addr act, preserves canonical_kept (SetActor addr act)) ∧
  (∀ addr, preserves canonical_kept (LookupID addr)) ∧
  (∀ order, preserves canonical_kept (Flush_range order)) ∧
  (∀ order, preserves canonical_kept (Snapshot_range order)) ∧
  preserves canonical_kept Revert ∧
  (∀ addr act, preserves canonical_kept (RegisterNewAddress addr act)).
Proof.
  repeat split; intros.
  - apply preserves_GetActor; apply _.
  - apply preserves_SetActor; apply _.
  - apply preserves_LookupID; apply _.
  - apply preserves_Flush_range; apply _.
  - apply preserves_Snapshot_range; apply _.
  - apply preserves_Revert; apply _.
  - apply preserves_RegisterNewAddress; apply _.
Qed.

(** ** C5: which failures are reported as a missing actor *)

#[global] Instance trace_grows_frame : Frame trace_grows.
Proof.
  split.
  - intros st. by exists [].
  - intros st1 st2 st3 [evs1 H1] [evs2 H2]. exists (evs2 ++ evs1).
    by rewrite H2, H1, app_assoc.
  - intros ev st. by exists [ev].
  - intros st. exists []. by destruct (take_fault_fields st) as (_ & _ & _ & _ & _ & _ & ->).
Qed.
#[global] Instance trace_grows_idCache : FrameIdCache trace_grows.
Proof. split; intros; by exists []. Qed.
#[global] Instance trace_grows_heap : FrameHeap trace_grows.
Proof. intros h st. by exists []. Qed.
#[global] Instance trace_grows_actorcache : FrameActorcache trace_grows.
Proof. intros c st. by exists []. Qed.

Lemma Is_Errorf msg e target :
  (∀ msg' e', target ≠ Errorf msg' e') → Is (Errorf msg e) target = Is e target.
Proof. intros Ht. simpl. by rewrite decide_False. Qed.

Lemma reports_Is_NotFound e e0 c :
  reports e e0 → collaborator_failure c e0 → Is e ErrNotFound = true → e0 = ErrNotFound.
Proof.
  induction 1 as [e0| |msg e e0 Hr IH]; intros Hc HI.
  - by destruct e0.
  - done.
  - rewrite Is_Errorf in HI by done. auto.
Qed.

Lemma reports_Is_ActorNotFound e e0 c :
  reports e e0 → collaborator_failure c e0 → Is e ErrNotFound = false →
  (e0 = ErrNotFound ∧ Is e ErrActorNotFound = true) ∨
  (∃ msg, e0 = ErrStore msg ∧ Is e ErrActorNotFound = false ∧ Is e e0 = true).
Proof.
  induction 1 as [e0| |msg e e0 Hr IH]; intros Hc HI.
  - destruct e0; try done. right. eexists. split; [done|]. split; [done|].
    simpl. by rewrite decide_True.
  - by left.
  - rewrite Is_Errorf in HI by done.
    destruct (IH Hc HI) as [[-> H]|(msg' & -> & H1 & H2)].
    + left. by rewrite Is_Errorf.
    + right. exists msg'. by rewrite !Is_Errorf.
Qed.

Section fails_rules.
Context {A B : Type}.

Lemma fails_bind (m : M A) (k : A → M B) :
  fails_reporting m → preserves trace_grows m → (∀ a, fails_reporting (k a)) →
  fails_reporting (bind m k).
Proof.
  intros Hm Hg Hk st e st' H.
  apply bind_inv in H as [(a & st1 & H1 & H2)|(e' & H1 & [= ->])]; [|by eapply Hm].
  destruct (Hg _ _ _ H1) as [evs1 Hevs1].
  destruct (Hk a _ _ _ H2) as (c & e0 & evs & Ht & Hc & Hr).
  exists c, e0, (evs ++ evs1). by rewrite Ht, Hevs1, app_assoc.
Qed.

Lemma fails_wrapping msg (m : M A) : fails_reporting m → fails_reporting (wrapping msg m).
Proof.
  intros Hm st e st' H.
  apply wrapping_inv in H as [(a & _ & [=])|(e' & H & [= ->])].
  destruct (Hm _ _ _ H) as (c & e0 & evs & Ht & Hc & Hr).
  exists c, e0, evs. split; [done|]. split; [done|]. by constructor.
Qed.

Lemma fails_never (m : M A) : (∀ st, ∃ a st', m st = (inr a, st')) → fails_reporting m.
Proof. intros Hm st e st' H. destruct (Hm st) as (a & st1 & Hm'). congruence. Qed.

Lemma fails_storage_call c (op : StateTree → Result A * StateTree) :
  (∀ st, trace (op st).2 = trace st) →
  (∀ st e, (op st).1 = inl e → collaborator_failure c e) →
  fails_reporting (storage_call c op).
Proof.
  intros Ht Hc st e st'. rewrite storage_call_unfold.
  destruct (take_fault_fields st) as (_ & _ & _ & _ & _ & _ & Htr).
  destruct (take_fault st).1 as [msg|].
  - intros [= <- <-]. exists c, (ErrStore msg), []. simpl. rewrite Htr.
    split; [done|]. split; [done|]. constructor.
  - intros [= He <-]. exists c, e, []. rewrite He. simpl. rewrite Ht, Htr.
    split; [done|]. split; [by eapply Hc|]. constructor.
Qed.
End fails_rules.

Lemma fails_root_Find k : fails_reporting (root_Find k).
Proof.
  apply fails_storage_call; [done|]. intros st e. simpl.
  destruct (root st !! k); [done|]. intros [= <-]. left. eauto.
Qed.

Lemma fails_Store_Get c : fails_reporting (Store_Get c).
Proof.
  apply fails_storage_call; [done|]. intros st e. simpl.
  destruct (store.get c _) as [[n|s]|]; [|done|]; by intros [= <-].
Qed.

Lemma fails_ias_Lookup s addr : fails_reporting (ias_Lookup s addr).
Proof.
  apply fails_storage_call; [done|]. intros st e. simpl. unfold ias.Lookup.
  destruct (AddressMap s !! _); [done|]. intros [= <-]. right. eauto.
Qed.

Lemma fails_ret {A} (a : A) : fails_reporting (ret a).
Proof. apply fails_never. intros st. by exists a, st. Qed.

Lemma fails_gets {A} (f : StateTree → A) : fails_reporting (gets f).
Proof. apply fails_never. intros st. by exists (f st), st. Qed.

Lemma fails_idCache_Get addr : fails_reporting (idCache_Get addr).
Proof. apply fails_never. intros st. rewrite idCache_Get_eq. eauto. Qed.

Lemma fails_idCache_Add addr id : fails_reporting (idCache_Add addr id).
Proof. apply fails_never. intros st. unfold idCache_Add, memory_call. eauto. Qed.

(** Resolving the init actor's address cannot fail. *)
Lemma LookupID_body_InitAddress_inr G st :
  ∃ id st', LookupID_body G InitAddress st = (inr id, st').
Proof.
  unfold LookupID_body. erewrite bind_inr by apply idCache_Get_eq.
  destruct (lru.lookup InitAddress (idCache st)); simpl; unfold ret; eauto.
Qed.

Lemma fails_LookupID_body G addr :
  fails_reporting (G InitAddress) → preserves trace_grows (G InitAddress) →
  fails_reporting (LookupID_body G addr).
Proof.
  intros HG Hg. unfold LookupID_body.
  apply fails_bind; [apply fails_idCache_Get|frame|intros [id|]]; [apply fails_ret|].
  destruct (decide _) as [Hp|Hp]; [apply fails_ret|].
  apply fails_bind; [by apply fails_wrapping|frame|intros act].
  apply fails_bind; [apply fails_gets|frame|intros a].
  apply fails_bind; [apply fails_wrapping, fails_Store_Get|frame|intros s].
  apply fails_bind; [apply fails_wrapping, fails_ias_Lookup|frame|intros id].
  apply fails_bind; [apply fails_idCache_Add|frame|intros _]. apply fails_ret.
Qed.

Lemma fails_GetActor_body L addr :
  addr ≠ address.Undef →
  fails_reporting (L addr) → preserves trace_grows (L addr) →
  fails_reporting (GetActor_body L addr).
Proof.
  intros Hu HL Hg st e st'. rewrite GetActor_body_unfold, decide_False by done.
  destruct (L addr st) as [[err|iaddr] st1] eqn:E.
  - intros [= <- <-]. destruct (HL _ _ _ E) as (c & e0 & evs & Ht & Hc & Hr).
    exists c, e0, evs. split; [done|]. split; [done|].
    destruct (Is err ErrNotFound) eqn:HI.
    + rewrite (reports_Is_NotFound _ _ _ Hr Hc HI). do 2 constructor.
    + by constructor.
  - destruct (Hg _ _ _ E) as [evs1 Hevs1].
    destruct (actorcache st1 !! iaddr); [done|].
    destruct (root_Find _ st1) as [[err|a] st2] eqn:EF; [|done].
    intros [= <- <-]. destruct (fails_root_Find _ _ _ _ EF) as (c & e0 & evs & Ht & Hc & Hr).
    exists c, e0, (evs ++ evs1). rewrite Ht, Hevs1, app_assoc.
    split; [done|]. split; [done|].
    destruct (decide _) as [->|Hne]; [|by constructor].
    inversion Hr; subst. constructor.
Qed.

(** Resolution only fails through a collaborator, and reports it. *)
Lemma fails_LookupID addr : fails_reporting (LookupID addr).
Proof.
  unfold LookupID. simpl. apply fails_LookupID_body.
  - apply fails_GetActor_body; [done| |].
    + apply fails_never. intros st. apply LookupID_body_InitAddress_inr.
    + apply (preserves_LookupID_depth trace_grows 1).
  - apply preserves_GetActor_body; try apply _.
    apply (preserves_LookupID_depth trace_grows 1).
Qed.

Lemma reports_not_CallDepth e e0 c :
  reports e e0 → collaborator_failure c e0 → Is e ErrCallDepth = false.
Proof.
  induction 1 as [e0| |msg e e0 Hr IH]; intros Hc.
  - by destruct e0.
  - done.
  - rewrite Is_Errorf by done. auto.
Qed.

(** The recursion budget is never the reason why resolution or lookup
    fails: both are total as they stand. *)
Lemma LookupID_within_budget addr st e st' :
  LookupID addr st = (inl e, st') → Is e ErrCallDepth = false.
Proof.
  intros H. destruct (fails_LookupID _ _ _ _ H) as (c & e0 & _ & _ & Hc & Hr).
  by eapply reports_not_CallDepth.
Qed.

Lemma GetActor_within_budget addr st e st' :
  GetActor addr st = (inl e, st') → Is e ErrCallDepth = false.
Proof.
  destruct (decide (addr = address.Undef)) as [->|Hu].
  - rewrite GetActor_unfold, decide_True by done. by intros [= <- _].
  - intros H.
    assert (fails_reporting (GetActor addr)) as Hf.
    { apply fails_GetActor_body; [done|apply fails_LookupID|].
      apply preserves_LookupID; apply _. }
    destruct (Hf _ _ _ H) as (c & e0 & _ & _ & Hc & Hr).
    by eapply reports_not_CallDepth.
Qed.

(** C5.  Apart from the rejection of the undefined address, [GetActor]
    only fails when a collaborator call failed, the most recent one in the
    log.  If that call answered the trie's not-found (a find in the trie,
    or the lookup in the init actor's table during resolution), the error
    returned is an actor-not-found.  Every other collaborator error is
    carried inside the error returned, which is then not an
    actor-not-found: a missing actor and a storage fault stay distinct. *)
Theorem GetActor_error_translation addr st e st' :
  GetActor addr st = (inl e, st') →
  (addr = address.Undef ∧ e = ErrUndefinedAddress ∧ Is e ErrActorNotFound = false) ∨
  ∃ c e0 evs,
    trace st' = (c, Some e0) :: evs ++ trace st ∧ collaborator_failure c e0 ∧
    ((e0 = ErrNotFound ∧ Is e ErrActorNotFound = true) ∨
     (∃ msg, e0 = ErrStore msg ∧ Is e ErrActorNotFound = false ∧ Is e e0 = true)).
Proof.
  rewrite GetActor_unfold. destruct (decide _) as [->|Hu].
  { intros [= <- <-]. by left. }
  intros H. right. revert H.
  destruct (LookupID addr st) as [[err|iaddr] st1] eqn:E.
  - intros [= <- <-].
    destruct (fails_LookupID _ _ _ _ E) as (c & e0 & evs & Ht & Hc & Hr).
    exists c, e0, evs. split; [done|]. split; [done|].
    destruct (Is err ErrNotFound) eqn:HI.
    + left. by rewrite (reports_Is_NotFound _ _ _ Hr Hc HI).
    + destruct (reports_Is_ActorNotFound _ _ _ Hr Hc HI) as [[-> H]|(msg & -> & H1 & H2)].
      * left. by rewrite Is_Errorf.
      * right. exists msg. by rewrite !Is_Errorf.
  - destruct (preserves_LookupID trace_grows addr _ _ _ E) as [evs1 Hevs1].
    destruct (actorcache st1 !! iaddr); [done|].
    rewrite root_Find_unfold.
    destruct (take_fault_fields st1) as (_ & _ & _ & _ & _ & _ & Htr).
    destruct (take_fault st1).1 as [msg|].
    + intros [= <- <-]. exists (NodeFind (address.Bytes iaddr)), (ErrStore msg), evs1.
      simpl. rewrite Htr, Hevs1. split; [done|]. split; [done|].
      right. exists msg. split; [done|]. split; [done|]. by rewrite decide_True.
    + destruct (root st1 !! address.Bytes iaddr); [done|].
      intros [= <- <-]. exists (NodeFind (address.Bytes iaddr)), ErrNotFound, evs1.
      simpl. rewrite Htr, Hevs1. split; [done|]. split; [left; eauto|].
      by left.
Qed.

Lemma GetActor_error_translation_witness :
  (id55 = address.Undef ∧ ErrActorNotFound = ErrUndefinedAddress ∧
   Is ErrActorNotFound ErrActorNotFound = false) ∨
  ∃ c e0 evs,
    trace (exec (GetActor id55) genesis_tree) = (c, Some e0) :: evs ++ trace genesis_tree ∧
    collaborator_failure c e0 ∧
    ((e0 = ErrNotFound ∧ Is ErrActorNotFound ErrActorNotFound = true) ∨
     (∃ msg, e0 = ErrStore msg ∧ Is ErrActorNotFound ErrActorNotFound = false ∧
             Is ErrActorNotFound e0 = true)).
Proof.
  apply (GetActor_error_translation id55 genesis_tree ErrActorNotFound
           (exec (GetActor id55) genesis_tree)).
  vm_compute. reflexivity.
Defined.

(** ** C1: what a revert restores *)

(** [Revert] replaces the trie root and purges the identifier cache; the
    actor cache and the records it points to are left as they are. *)
Lemma Revert_keeps_actorcache st r st' :
  Revert st = (r, st') → actorcache st' = actorcache st ∧ heap st' = heap st.
Proof.
  intros H. split.
  - apply (preserves_Revert (keeps actorcache) _ _ _ H).
  - apply (preserves_Revert (keeps heap) _ _ _ H).
Qed.

(** The store only grows, whatever the methods do. *)
#[global] Instance store_grows_frame : Frame store_grows.
Proof.
  split.
  - intros st c b H. exact H.
  - intros st1 st2 st3 H12 H23 c b Hc. auto.
  - intros ev st c b H. exact H.
  - intros st c b. by destruct (take_fault_fields st) as (_ & -> & _).
Qed.
#[global] Instance store_grows_idCache : FrameIdCache store_grows.
Proof. split; intros; intros c b Hc; exact Hc. Qed.
#[global] Instance store_grows_purge : FramePurge store_grows.
Proof. intros st c b H. exact H. Qed.
#[global] Instance store_grows_heap : FrameHeap store_grows.
Proof. intros h st c b H. exact H. Qed.
#[global] Instance store_grows_actorcache : FrameActorcache store_grows.
Proof. intros ac st c b H. exact H. Qed.
#[global] Instance store_grows_root : FrameRoot store_grows.
Proof. intros n st c b H. exact H. Qed.
#[global] Instance store_grows_snapshot : FrameSnapshot store_grows.
Proof. intros c0 st c b H. exact H. Qed.
#[global] Instance store_grows_blocks : FrameBlocks store_grows.
Proof.
  intros b0 st c b. unfold stored. simpl.
  apply (store_put_keeps b0 _ (store.put b0 (blocks (Store st))).1).
  apply surjective_pairing.
Qed.

(** A successful snapshot remembers a reference under which the store
    holds the trie as it then is. *)
Lemma Snapshot_range_inr_inv order st st' :
  Snapshot_range order st = (inr tt, st') →
  store.get (snapshot st') (stored st') = Some (NodeBlock (root st')).
Proof.
  unfold Snapshot_range. intros (c & st1 & HF & H)%bind_inr_inv.
  injection H as <-. apply Flush_range_cases in HF as (_ & _ & _ & _ & _ & Hput).
  by apply store_put_get in Hput.
Qed.

(** A successful revert installs the trie the snapshot reference stands
    for. *)
Lemma Revert_inr_inv st st' :
  Revert st = (inr tt, st') →
  store.get (snapshot st) (stored st) = Some (NodeBlock (root st')).
Proof.
  rewrite Revert_unfold, hamt_LoadNode_unfold.
  destruct (take_fault st).1; [done|].
  destruct (store.get _ _) as [[n|s]|]; [|done..]. by intros [= <-].
Qed.

(** X7.  The trie itself is restored exactly: whatever ran between a
    successful snapshot and a successful revert, as long as it only added
    to the store and left the snapshot reference alone (as every method
    but [Snapshot] does), the reverted trie is the trie of the snapshot. *)
Lemma Revert_restores_trie {A} order (m : M A) st0 st1 r st2 st3 :
  Snapshot_range order st0 = (inr tt, st1) →
  preserves (rel_and store_grows (keeps snapshot)) m →
  m st1 = (r, st2) →
  Revert st2 = (inr tt, st3) →
  root st3 = root st1.
Proof.
  intros HS Hm Hr HR.
  apply Snapshot_range_inr_inv in HS. apply Revert_inr_inv in HR.
  destruct (Hm _ _ _ Hr) as [Hg Hk]. unfold keeps in Hk.
  apply Hg in HS. rewrite <- Hk in HS. congruence.
Qed.

(** C1 fails on the code.  Every step of the run succeeds and the revert
    restores the trie of the snapshot, in which ID address 7 holds the
    record with nonce 0 and ID address 100 is absent.  Yet after the
    revert [GetActor] answers from the actor cache, which [Revert] did not
    clear: ID address 7 reads as the record with nonce 2, and the address
    registered after the snapshot still resolves and reads as its record
    instead of failing with actor-not-found. *)
Theorem Revert_serves_stale_actorcache :
  result since_snapshot at_snapshot = inr tt ∧
  root after_revert = root at_snapshot ∧
  result (read id7) at_snapshot = inr (account 0) ∧
  result (read id100) at_snapshot = inl ErrActorNotFound ∧
  result (read id7) after_revert = inr (account 2) ∧
  result (read id100) after_revert = inr (account 3) ∧
  result (read bls42) after_revert = inr (account 3).
Proof. repeat split; vm_compute; reflexivity. Qed.


(** ** Further runs of the methods *)

(** Registration followed by resolution: the minted address is the
    answer, by either form of the address, and a second registration of
    the same address fails. *)
Example register_then_resolve :
  result (RegisterNewAddress bls42 2%N) genesis_plus = inr id100 ∧
  result (LookupID bls42) (exec (RegisterNewAddress bls42 2%N) genesis_plus) = inr id100 ∧
  result (read bls42) (exec (RegisterNewAddress bls42 2%N) genesis_plus) = inr (account 1) ∧
  result (read id100) (exec (RegisterNewAddress bls42 2%N) genesis_plus) = inr (account 1) ∧
  result (RegisterNewAddress bls42 2%N) (exec (RegisterNewAddress bls42 2%N) genesis_plus)
  = inl (ErrStore "address already registered").
Proof. repeat split; vm_compute; reflexivity. Qed.

(** Flush, then a tree loaded from the returned root: the records read
    back are the records set. *)
Example flush_then_load :
  match result Flush genesis_tree with
  | inr c =>
      match LoadStateTree (Store (exec Flush genesis_tree)) c with
      | inr st => result (read id7) st = inr (account 0)
      | inl _ => False
      end
  | inl _ => False
  end.
Proof. vm_compute. reflexivity. Qed.

(** A storage fault during the trie lookup is not reported as a missing
    actor, a missing key is. *)
Example lookup_fault_and_miss :
  result (GetActor id7) (with_faults [Some "io"] (exec Flush genesis_tree))
  = inl (Errorf "hamt find failed" (ErrStore "io")) ∧
  result (GetActor id55) genesis_tree = inl ErrActorNotFound ∧
  result (GetActor bls42) genesis_tree
  = inl (Errorf "resolution lookup failed" ErrActorNotFound).
Proof. repeat split; vm_compute; reflexivity. Qed.


(** * Further properties of the methods *)

(** ** Reading an address in ID form *)

Lemma take_fault_log ev st :
  take_fault (log ev st) = ((take_fault st).1, log ev (take_fault st).2).
Proof. unfold take_fault. simpl. by destruct (faults (Store st)). Qed.

Lemma canonical_defined a : address.Protocol a = address.ID → a ≠ address.Undef.
Proof. by intros H ->. Qed.

(** [GetActor] of an address in ID form, when the identifier cache holds
    no such key: resolution is one cache miss, then the cache and the trie
    are consulted. *)
Lemma GetActor_canonical a st :
  address.Protocol a = address.ID →
  canonical_free (idCache st) = true →
  GetActor a st =
    match actorcache st !! a with
    | Some cact => (inr cact, log (IdCacheGet a, None) st)
    | None =>
        match root_Find (address.Bytes a) (log (IdCacheGet a, None) st) with
        | (inl err, st2) =>
            (inl (if decide (err = ErrNotFound) then ErrActorNotFound
                  else Errorf "hamt find failed" err), st2)
        | (inr x, st2) =>
            let act := fresh (dom (heap st2)) in
            (inr act,
             set_actorcache (<[a := act]> (actorcache st2))
               (set_heap (<[act := x]> (heap st2)) st2))
        end
    end.
Proof.
  intros Hp Hc. rewrite GetActor_unfold, decide_False by by apply canonical_defined.
  rewrite (LookupID_miss_ID a st) by (by try apply canonical_free_lookup). done.
Qed.

(** X1.  For an address in ID form, in a tree whose identifier cache
    holds no ID-form key and whose storage layer does not fail, [GetActor]
    followed by a read through the handle gives the cached record when the
    actor cache has an entry, the trie's record otherwise, and fails with
    actor-not-found when neither has one. *)
Theorem read_canonical a st :
  address.Protocol a = address.ID →
  canonical_free (idCache st) = true →
  fault_free st →
  result (read a) st = found (held st a).
Proof.
  intros Hp Hc Hf. unfold result, read, bind, held.
  rewrite GetActor_canonical by done.
  destruct (actorcache st !! a) as [p|]; [done|].
  rewrite root_Find_unfold, take_fault_log. simpl.
  destruct (fault_free_take st Hf) as (-> & _).
  destruct (take_fault_fields st) as (_ & _ & _ & _ & _ & Hh & _).
  destruct (root st !! address.Bytes a) as [x|]; simpl; [|done].
  unfold load, gets. simpl. by rewrite lookup_total_insert_eq.
Qed.

Lemma read_canonical_witness :
  result (read id7) dirty_tree = found (held dirty_tree id7).
Proof.
  apply (read_canonical id7 dirty_tree); [reflexivity|reflexivity|].
  apply Forall_nil. exact I.
Defined.


(** ** Reads do not change what the tree holds *)

#[global] Instance held_kept_frame : Frame held_kept.
Proof.
  split.
  - by intros st H.
  - intros st1 st2 st3 H12 H23 H1. destruct (H12 H1) as (H2 & E12 & S12).
    destruct (H23 H2) as (H3 & E23 & S23). split; [done|]. split.
    + intros b. by rewrite E23.
    + by etrans.
  - by intros ev st H.
  - intros st H. unfold cache_allocated, held.
    destruct (take_fault_fields st) as (-> & _ & -> & _ & _ & -> & _). done.
Qed.
#[global] Instance held_kept_idCache : FrameIdCache held_kept.
Proof. split; intros; intros Hal; done. Qed.

Lemma held_kept_GetActor_body L addr :
  preserves held_kept (L addr) → preserves held_kept (GetActor_body L addr).
Proof.
  intros HL st r st'. rewrite GetActor_body_unfold.
  destruct (decide _); [intros [= <- <-]; reflexivity|].
  destruct (L addr st) as [[err|iaddr] st1] eqn:E; [intros [= <- <-]; by eapply HL|].
  destruct (actorcache st1 !! iaddr) as [cact|] eqn:Hc; [intros [= <- <-]; by eapply HL|].
  pose proof (preserves_root_Find held_kept (address.Bytes iaddr) st1) as HF.
  rewrite root_Find_unfold in *.
  destruct (take_fault_fields st1) as (Hr & _ & Ha & _ & _ & Hh & _).
  destruct (take_fault st1).1 as [msg|].
  { intros [= <- <-]. etrans; [by eapply HL|]. by eapply HF. }
  destruct (root st1 !! address.Bytes iaddr) as [x|] eqn:Hx.
  2:{ intros [= <- <-]. etrans; [by eapply HL|]. by eapply HF. }
  intros [= <- <-]. etrans; [by eapply HL|]. etrans; [by eapply HF|].
  intros Hal. simpl in *.
  set (st2 := (take_fault st1).2) in *.
  assert (cache_allocated st2) as Hal2.
  { intros a p. by apply Hal. }
  pose proof (is_fresh (dom (heap st2))) as Hfresh.
  split; [|split].
  - intros a p. simpl. rewrite dom_insert_L.
    destruct (decide (iaddr = a)) as [->|Hne].
    + rewrite lookup_insert_eq. intros [= <-]. set_solver.
    + rewrite lookup_insert_ne by done. intros Hp. apply Hal2 in Hp. set_solver.
  - intros b. unfold held. simpl.
    destruct (decide (iaddr = b)) as [->|Hne].
    + rewrite lookup_insert_eq, lookup_total_insert_eq. by rewrite Ha, Hc, Hr, Hx.
    + rewrite lookup_insert_ne by done.
      destruct (actorcache st2 !! b) as [q|] eqn:Hq; [|done].
      rewrite lookup_total_insert_ne; [done|].
      intros <-. by apply Hal2 in Hq.
  - simpl. apply insert_subseteq. by apply not_elem_of_dom.
Qed.

Lemma held_kept_LookupID_depth n addr : preserves held_kept (LookupID_depth n addr).
Proof.
  revert addr. induction n as [|n IH]; intros addr; simpl.
  - by fapply preserves_fail.
  - fapply preserves_LookupID_body. by apply held_kept_GetActor_body.
Qed.

Lemma held_kept_LookupID addr : preserves held_kept (LookupID addr).
Proof. apply (held_kept_LookupID_depth 2). Qed.

Lemma held_kept_GetActor addr : preserves held_kept (GetActor addr).
Proof. apply held_kept_GetActor_body, held_kept_LookupID. Qed.

(** X2.  Reading is transparent.  Whatever [GetActor] or [LookupID]
    returns, and although a miss loads the trie's record into the actor
    cache, the tree afterwards holds the same record for every address as
    before, and the cached handles stay allocated. *)
Theorem reads_keep_held addr st :
  cache_allocated st →
  (∀ r st', GetActor addr st = (r, st') →
            cache_allocated st' ∧ ∀ b, held st' b = held st b) ∧
  (∀ r st', LookupID addr st = (r, st') →
            cache_allocated st' ∧ ∀ b, held st' b = held st b).
Proof.
  intros Hal. split; intros r st' H.
  - destruct (held_kept_GetActor _ _ _ _ H Hal) as (? & ? & _). done.
  - destruct (held_kept_LookupID _ _ _ _ H Hal) as (? & ? & _). done.
Qed.

Lemma held_lookup_total (h h' : gmap loc Actor) p :
  h ⊆ h' → p ∈ dom h → h' !!! p = h !!! p.
Proof.
  intros Hs [x Hx]%elem_of_dom.
  rewrite !lookup_total_alt, Hx. by rewrite (lookup_weaken _ _ _ _ Hx Hs).
Qed.

Lemma flushed_tree_cache : actorcache flushed_tree = ∅.
Proof. vm_compute. reflexivity. Qed.

Lemma reads_keep_held_witness :
  (∀ r st', GetActor id7 flushed_tree = (r, st') →
            cache_allocated st' ∧ ∀ b, held st' b = held flushed_tree b) ∧
  (∀ r st', LookupID id7 flushed_tree = (r, st') →
            cache_allocated st' ∧ ∀ b, held st' b = held flushed_tree b).
Proof.
  apply (reads_keep_held id7 flushed_tree).
  intros a p. rewrite flushed_tree_cache, lookup_empty. discriminate.
Defined.

(** ** What a set overwrites *)

(** X3.  [SetActor] overwrites one address.  After a successful
    [SetActor] of an allocated record, the tree holds that record for the
    address the given one resolves to, and holds for every other address
    what it held before. *)
Theorem SetActor_held addr act st st' :
  cache_allocated st → act ∈ dom (heap st) →
  SetActor addr act st = (inr tt, st') →
  ∃ iaddr st1,
    LookupID addr st = (inr iaddr, st1) ∧
    held st' iaddr = Some (heap st !!! act) ∧
    (∀ b, b ≠ iaddr → held st' b = held st b) ∧
    cache_allocated st'.
Proof.
  intros Hal Hact H.
  apply SetActor_inr_inv in H as (iaddr & st1 & HL & _ & Hh & _ & _ & H).
  destruct (held_kept_LookupID _ _ _ _ HL Hal) as (Hal1 & Hheld & Hsub).
  pose proof (held_lookup_total _ _ act Hsub Hact) as Hrec.
  exists iaddr, st1. split; [done|].
  destruct (decide _) as [Hc|Hc].
  - subst st'. split; [|split; [|done]].
    + unfold held. by rewrite Hc, Hrec.
    + intros b _. apply Hheld.
  - destruct H as (Ha & Hr). split; [|split].
    + unfold held. by rewrite Ha, lookup_insert_eq, Hh, Hrec.
    + intros b Hb. rewrite <- Hheld. unfold held.
      rewrite Ha, Hr, Hh, !lookup_insert_ne; [done| |done].
      intros Heq. by apply (inj address.Bytes) in Heq.
    + intros a p. rewrite Ha, Hh.
      destruct (decide (iaddr = a)) as [->|Hne].
      * rewrite lookup_insert_eq. intros [= <-].
        by apply (subseteq_dom _ _ Hsub).
      * rewrite lookup_insert_ne by done. apply Hal1.
Qed.

Lemma cache_allocated_check st :
  bool_decide (map_Forall (λ _ p, p ∈ dom (heap st)) (actorcache st)) = true →
  cache_allocated st.
Proof. intros H%bool_decide_eq_true a p Hp. by apply (H a p). Qed.

Lemma SetActor_held_witness :
  ∃ iaddr st1,
    LookupID id7 genesis_plus = (inr iaddr, st1) ∧
    held (exec (SetActor id7 2%N) genesis_plus) iaddr = Some (heap genesis_plus !!! 2%N) ∧
    (∀ b, b ≠ iaddr → held (exec (SetActor id7 2%N) genesis_plus) b = held genesis_plus b) ∧
    cache_allocated (exec (SetActor id7 2%N) genesis_plus).
Proof.
  apply (SetActor_held id7 2%N genesis_plus).
  - apply cache_allocated_check. vm_compute. reflexivity.
  - apply (bool_decide_eq_true_1 (2%N ∈ dom (heap genesis_plus))). vm_compute. reflexivity.
  - vm_compute. reflexivity.
Defined.

(** ** A flush does not change what the tree holds *)

(** However far the write loop gets, the trie is the old one with a
    prefix of the entries written over it. *)
Lemma write_entries_root order st r st' :
  write_entries order st = (r, st') →
  ∃ written, written `prefix_of` order ∧
             root st' = write_over (heap st) (root st) written.
Proof.
  revert st. induction order as [|[a p] order IH]; intros st H; simpl in H.
  - injection H as <- <-. by exists [].
  - unfold bind at 1 in H. unfold load, gets in H. unfold bind at 1 in H.
    rewrite root_Set_unfold in H.
    destruct (take_fault_fields st) as (Hr & _ & _ & _ & _ & Hh & _).
    destruct (take_fault st).1.
    + injection H as <- <-. exists []. split; [apply prefix_nil|]. simpl. done.
    + apply IH in H as (written & Hpre & Hroot). simpl in Hroot.
      exists ((a, p) :: written). split; [by apply prefix_cons|].
      simpl. by rewrite Hroot, Hh.
Qed.

Lemma Flush_range_root order st r st' :
  Flush_range order st = (r, st') →
  heap st' = heap st ∧
  ∃ written, written `prefix_of` order ∧
             root st' = write_over (heap st) (root st) written ∧
             (actorcache st' = actorcache st ∨ (actorcache st' = ∅ ∧ written = order)).
Proof.
  intros H. pose proof H as H'.
  apply Flush_range_cases in H' as (_ & _ & Hh & Hcases). split; [done|].
  destruct r as [e|c].
  - destruct Hcases as (_ & [(k & tl & Ht & Ha)|(c & tl & _ & _ & Ha & Hr)]).
    + rewrite Flush_range_unfold in H.
      destruct (write_entries order st) as [[e'|[]] st1] eqn:Hw.
      * injection H as <- <-. apply write_entries_root in Hw as (written & Hpre & Hroot).
        exists written. auto.
      * exists order. split; [done|].
        pose proof (write_entries_result _ _ _ _ Hw) as (_ & _ & _ & _ & _ & Hroot).
        assert (actorcache st' = ∅ ∧ root st' = root st1) as [Ha' Hr'].
        { pose proof (preserves_root_Flush (keeps root) (set_actorcache ∅ st1)) as Hk1.
          pose proof (preserves_root_Flush (keeps actorcache) (set_actorcache ∅ st1)) as Hk2.
          destruct (root_Flush (set_actorcache ∅ st1)) as [[e'|[]] st2].
          - injection H as <- <-. split; [by apply (Hk2 _ _ eq_refl)|by apply (Hk1 _ _ eq_refl)].
          - pose proof (preserves_Store_Put (keeps root) (NodeBlock (root st2)) _ _ _ H) as Hk3.
            pose proof (preserves_Store_Put (keeps actorcache) (NodeBlock (root st2)) _ _ _ H)
              as Hk4.
            unfold keeps in *. split.
            + by rewrite Hk4, (Hk2 _ _ eq_refl).
            + by rewrite Hk3, (Hk1 _ _ eq_refl). }
        split; [congruence|]. right. done.
    + exists order. split; [done|]. split; [done|]. by right.
  - destruct Hcases as (Hr & Ha & _). exists order. split; [done|]. split; [done|]. by right.
Qed.

Lemma Flush_range_keeps_held order st r st' :
  order ≡ₚ map_to_list (actorcache st) →
  Flush_range order st = (r, st') →
  ∀ b, held st' b = held st b.
Proof.
  intros Hp H. apply Flush_range_root in H as (Hh & written & Hpre & Hr & Hc).
  intros b. unfold held. rewrite Hr, Hh.
  destruct Hc as [Ha|[Ha ->]]; rewrite Ha.
  - destruct (actorcache st !! b) as [q|] eqn:Hq; [done|].
    apply write_over_other. intros a p Hin Heq. apply (inj address.Bytes) in Heq as ->.
    destruct Hpre as [rest ->].
    assert ((b, p) ∈ map_to_list (actorcache st)) as Hin'.
    { rewrite <- Hp. apply elem_of_app. by left. }
    apply elem_of_map_to_list in Hin'. congruence.
  - rewrite lookup_empty.
    destruct (write_over_all_written st order Hp) as [Hin Hout].
    destruct (actorcache st !! b) as [q|] eqn:Hq; [by apply Hin|].
    apply Hout. intros a [p Ha'] Heq. apply (inj address.Bytes) in Heq as ->. congruence.
Qed.

(** X4.  A flush never changes what the tree holds.  Whatever the order
    of the writes and whether the flush succeeds, fails at a trie write or
    fails at the persist step, the tree afterwards holds for every address
    the record it held before (from the trie where the cache was cleared,
    from the cache where it was not); no record is altered. *)
Theorem Flush_range_held order st r st' :
  order ≡ₚ map_to_list (actorcache st) →
  Flush_range order st = (r, st') →
  (∀ b, held st' b = held st b) ∧ heap st' = heap st.
Proof.
  intros Hp H. split; [by eapply Flush_range_keeps_held|].
  by apply Flush_range_root in H as (Hh & _).
Qed.

Lemma Flush_range_held_witness :
  (∀ b, held (exec Flush failing_flush) b = held failing_flush b) ∧
  heap (exec Flush failing_flush) = heap failing_flush.
Proof.
  apply (Flush_range_held (map_to_list (actorcache failing_flush)) failing_flush
           (inl (ErrStore "disk full"))).
  - reflexivity.
  - vm_compute. reflexivity.
Defined.

(** ** Loading a tree *)

Lemma LoadStateTree_unfold cst c :
  LoadStateTree cst c =
    match hamt_LoadNode c (mkStateTree ∅ cst ∅ cid.Undef [] ∅ []) with
    | (inl e, _) => inl e
    | (inr nd, st) => inr (set_idCache [] (set_root nd st))
    end.
Proof.
  unfold LoadStateTree. by destruct (hamt_LoadNode c _) as [[e|nd] st].
Qed.

(** X5.  [LoadStateTree] only succeeds on a reference under which the
    store holds a trie (never on the undefined reference), and the tree it
    returns has that trie as root, empty caches and no snapshot. *)
Theorem LoadStateTree_inr_inv cst c st :
  LoadStateTree cst c = inr st →
  c ≠ cid.Undef ∧
  store.get c (blocks cst) = Some (NodeBlock (root st)) ∧
  actorcache st = ∅ ∧ idCache st = [] ∧ snapshot st = cid.Undef ∧
  blocks (Store st) = blocks cst.
Proof.
  rewrite LoadStateTree_unfold, hamt_LoadNode_unfold.
  set (st0 := mkStateTree ∅ cst ∅ cid.Undef [] ∅ []).
  destruct (take_fault_fields st0) as (_ & Hs & Ha & Hn & _).
  destruct (take_fault st0).1; [done|].
  unfold stored in *. simpl in *.
  destruct (store.get c (blocks cst)) as [[n|s]|] eqn:E; [|done..].
  intros [= <-]. simpl. split; [by intros ->|]. by rewrite Ha, Hn, Hs.
Qed.

Lemma LoadStateTree_inr_inv_witness :
  cid.At 1 ≠ cid.Undef ∧
  store.get (cid.At 1) (blocks (Store flushed_tree)) = Some (NodeBlock (root loaded_tree)) ∧
  actorcache loaded_tree = ∅ ∧ idCache loaded_tree = [] ∧
  snapshot loaded_tree = cid.Undef ∧
  blocks (Store loaded_tree) = blocks (Store flushed_tree).
Proof.
  apply (LoadStateTree_inr_inv (Store flushed_tree) (cid.At 1) loaded_tree).
  vm_compute. reflexivity.
Defined.

(** X6.  Flush, then load.  When a flush has returned a root reference
    and the storage layer does not fail, [LoadStateTree] on that reference
    succeeds, and the loaded tree holds for every address the record the
    flushed tree held before the flush; its caches are empty. *)
Theorem Flush_LoadStateTree_round_trip order st c st' :
  order ≡ₚ map_to_list (actorcache st) →
  Flush_range order st = (inr c, st') →
  fault_free st' →
  ∃ st'', LoadStateTree (Store st') c = inr st'' ∧
          (∀ b, held st'' b = held st b) ∧
          actorcache st'' = ∅ ∧ idCache st'' = [].
Proof.
  intros Hp HF Hff.
  pose proof (Flush_range_keeps_held _ _ _ _ Hp HF) as Hheld.
  apply Flush_range_cases in HF as (_ & _ & _ & _ & Ha & Hput).
  apply store_put_get in Hput. unfold stored in Hput.
  rewrite LoadStateTree_unfold, hamt_LoadNode_unfold.
  set (st0 := mkStateTree ∅ (Store st') ∅ cid.Undef [] ∅ []).
  destruct (fault_free_take st0 Hff) as (-> & _).
  destruct (take_fault_fields st0) as (_ & _ & Ha0 & _).
  unfold stored. simpl. rewrite Hput.
  eexists. split; [reflexivity|]. simpl. split; [|done].
  intros b. rewrite <- Hheld. unfold held. simpl. by rewrite Ha0, Ha, !lookup_empty.
Qed.

Lemma Flush_LoadStateTree_round_trip_witness :
  ∃ st'', LoadStateTree (Store flushed_tree) (cid.At 1) = inr st'' ∧
          (∀ b, held st'' b = held genesis_tree b) ∧
          actorcache st'' = ∅ ∧ idCache st'' = [].
Proof.
  apply (Flush_LoadStateTree_round_trip (map_to_list (actorcache genesis_tree))
           genesis_tree (cid.At 1) flushed_tree).
  - reflexivity.
  - vm_compute. reflexivity.
  - apply Forall_nil. exact I.
Defined.

(** ** Snapshot and revert *)

Section frame_flush.
Context (R : relation StateTree) `{!Frame R}.

Lemma preserves_Flush `{!FrameRoot R, !FrameActorcache R, !FrameBlocks R} :
  preserves R Flush.
Proof. intros st r st' H. by apply (preserves_Flush_range R _ _ _ _ H). Qed.

Lemma preserves_Snapshot
    `{!FrameRoot R, !FrameActorcache R, !FrameBlocks R, !FrameSnapshot R} :
  preserves R Snapshot.
Proof. intros st r st' H. by apply (preserves_Snapshot_range R _ _ _ _ H). Qed.
End frame_flush.

Lemma Revert_restores_trie_witness :
  root (exec Revert before_revert) = root at_snapshot.
Proof.
  apply (Revert_restores_trie (map_to_list (actorcache genesis_tree)) writes_since_snapshot
           genesis_tree at_snapshot (inr tt) before_revert (exec Revert before_revert)).
  - vm_compute. reflexivity.
  - unfold writes_since_snapshot.
    pose proof (preserves_Flush (rel_and store_grows (keeps snapshot))).
    pose proof (λ a p, preserves_SetActor (rel_and store_grows (keeps snapshot)) a p).
    pose proof (λ a p, preserves_RegisterNewAddress (rel_and store_grows (keeps snapshot)) a p).
    frame.
  - vm_compute. reflexivity.
  - vm_compute. reflexivity.
Defined.

(** X8.  What the tree holds after a revert.  A revert succeeds exactly
    on a snapshot reference under which the store holds a trie.  That
    trie becomes the root and the identifier cache is emptied, but the
    actor cache is kept: for an address with a cache entry the tree still
    holds the cached record, whatever the snapshot's trie says; only for
    the other addresses does it hold the snapshot's record. *)
Theorem Revert_held st st' :
  Revert st = (inr tt, st') →
  store.get (snapshot st) (stored st) = Some (NodeBlock (root st')) ∧
  idCache st' = [] ∧ snapshot st' = snapshot st ∧ stored st' = stored st ∧
  ∀ b, held st' b = match actorcache st !! b with
                    | Some p => Some (heap st !!! p)
                    | None => root st' !! address.Bytes b
                    end.
Proof.
  intros H. split; [by apply Revert_inr_inv|].
  pose proof (Revert_keeps_actorcache _ _ _ H) as [Ha Hh].
  pose proof (preserves_Revert (keeps snapshot) _ _ _ H) as Hn.
  pose proof (preserves_Revert (keeps stored) _ _ _ H) as Hs.
  split; [|split; [done|split; [done|]]].
  - rewrite Revert_unfold in H.
    destruct (hamt_LoadNode (snapshot st) st) as [[e|nd] st1]; [done|]. by injection H as <-.
  - intros b. unfold held. by rewrite Ha, Hh.
Qed.

Lemma Revert_held_witness :
  store.get (snapshot before_revert) (stored before_revert)
  = Some (NodeBlock (root (exec Revert before_revert))) ∧
  idCache (exec Revert before_revert) = [] ∧
  snapshot (exec Revert before_revert) = snapshot before_revert ∧
  stored (exec Revert before_revert) = stored before_revert ∧
  ∀ b, held (exec Revert before_revert) b
       = match actorcache before_revert !! b with
         | Some p => Some (heap before_revert !!! p)
         | None => root (exec Revert before_revert) !! address.Bytes b
         end.
Proof.
  apply (Revert_held before_revert (exec Revert before_revert)).
  vm_compute. reflexivity.
Defined.

(** X9.  A snapshot moves the rollback point only when it succeeds.  On
    success the snapshot reference is one under which the store holds the
    trie as it now is, and the actor cache is empty; on failure the
    snapshot reference is the one the tree had.  Either way the tree holds
    for every address the record it held before. *)
Theorem Snapshot_range_outcome order st r st' :
  order ≡ₚ map_to_list (actorcache st) →
  Snapshot_range order st = (r, st') →
  (∀ b, held st' b = held st b) ∧
  match r with
  | inr _ => store.get (snapshot st') (stored st') = Some (NodeBlock (root st')) ∧
             actorcache st' = ∅
  | inl _ => snapshot st' = snapshot st
  end.
Proof.
  intros Hp H. unfold Snapshot_range in H.
  apply bind_inv in H as [(c & st1 & HF & H)|(e & HF & ->)].
  - injection H as <- <-.
    pose proof (Flush_range_keeps_held _ _ _ _ Hp HF) as Hheld.
    apply Flush_range_cases in HF as (_ & _ & _ & _ & Ha & Hput).
    apply store_put_get in Hput. split; [|by split].
    intros b. rewrite <- Hheld. done.
  - split; [by eapply Flush_range_keeps_held|].
    by apply Flush_range_cases in HF as (_ & Hn & _).
Qed.

Lemma Snapshot_range_outcome_witness :
  (∀ b, held (exec Snapshot failing_flush) b = held failing_flush b) ∧
  snapshot (exec Snapshot failing_flush) = snapshot failing_flush.
Proof.
  apply (Snapshot_range_outcome (map_to_list (actorcache failing_flush)) failing_flush
           (inl (ErrStore "disk full")) (exec Snapshot failing_flush)).
  - reflexivity.
  - vm_compute. reflexivity.
Defined.

(** ** Handles and the trie *)





(** X12.  A [SetActor] whose trie write fails has still replaced the
    cache entry.  When [SetActor] returns the storage layer's error, the
    trie is as it was, but a [GetActor] of the address now returns the
    handle that was passed, so the tree serves the record whose write was
    refused. *)
Theorem SetActor_failed_write_visible addr act msg st st' :
  addr ≠ address.Undef →
  SetActor addr act st = (inl (ErrStore msg), st') →
  root st' = root st ∧
  ∃ c, GetActor addr st' = (inr act, log (IdCacheGet addr, None) (set_idCache c st')).
Proof.
  intros Hu H.
  apply SetActor_inl_inv in H as [(e0 & _ & [=])|(iaddr & st1 & m & HL & _ & Ha & Hr & _ & _ & Hi)].
  split.
  - rewrite Hr. pose proof (preserves_LookupID (keeps root) _ _ _ _ HL) as Hk. done.
  - destruct (LookupID_again _ _ _ _ st' HL Hi) as (c & HL').
    exists c. apply (GetActor_cached _ iaddr); [done|exact HL'|].
    simpl. rewrite Ha. apply lookup_insert_eq.
Qed.

Lemma SetActor_failed_write_visible_witness :
  root (exec (SetActor id7 2%N) (with_faults [Some "io"] genesis_plus))
  = root (with_faults [Some "io"] genesis_plus) ∧
  ∃ c, GetActor id7 (exec (SetActor id7 2%N) (with_faults [Some "io"] genesis_plus))
       = (inr 2%N, log (IdCacheGet id7, None)
                     (set_idCache c (exec (SetActor id7 2%N)
                                       (with_faults [Some "io"] genesis_plus)))).
Proof.
  apply (SetActor_failed_write_visible id7 2%N "io" (with_faults [Some "io"] genesis_plus)
           (exec (SetActor id7 2%N) (with_faults [Some "io"] genesis_plus))).
  - done.
  - vm_compute. reflexivity.
Defined.

(** ** The empty tree *)

(** [GetActor] on a tree with empty caches and an empty trie. *)
Lemma GetActor_nothing_held addr st :
  actorcache st = ∅ → root st = ∅ → idCache st = [] → fault_free st →
  ∃ e st', GetActor addr st = (inl e, st') ∧
           if decide (addr = address.Undef) then e = ErrUndefinedAddress
           else Is e ErrActorNotFound = true.
Proof.
  intros Ha Hr Hi Hf.
  assert (∀ a st0, address.Protocol a = address.ID →
            actorcache st0 = ∅ → root st0 = ∅ → idCache st0 = [] → fault_free st0 →
            ∃ st', GetActor a st0 = (inl ErrActorNotFound, st')) as Hid.
  { intros a st0 Hp Ha0 Hr0 Hi0 Hf0.
    rewrite GetActor_canonical by (done || by rewrite Hi0).
    rewrite Ha0, lookup_empty, root_Find_unfold.
    assert (fault_free (log (IdCacheGet a, None) st0)) as Hf1 by exact Hf0.
    destruct (fault_free_take _ Hf1) as (-> & _).
    assert (root (log (IdCacheGet a, None) st0) = ∅) as -> by exact Hr0.
    rewrite lookup_empty. rewrite decide_True by done. eauto. }
  rewrite GetActor_unfold. destruct (decide (addr = address.Undef)) as [|Hu]; [by eauto|].
  destruct (decide (address.Protocol addr = address.ID)) as [Hp|Hp].
  - destruct (Hid addr st Hp Ha Hr Hi Hf) as (st' & HG).
    rewrite GetActor_unfold, decide_False in HG by done. rewrite HG. eauto.
  - destruct (Hid InitAddress (log (IdCacheGet addr, None) (set_idCache [] st)))
      as (st' & HG); [done|done|done|done|exact Hf|].
    assert (LookupID addr st
            = (inl (Errorf "getting init actor" ErrActorNotFound), st')) as ->.
    { rewrite LookupID_unfold. unfold LookupID_body.
      erewrite bind_inr by apply idCache_Get_eq.
      rewrite Hi. change (lru.lookup addr []) with (@None Address).
      change (lru.Get addr []).2 with (@nil (Address * Address)).
      cbv iota. rewrite decide_False by done.
      apply bind_inl. unfold wrapping. by rewrite HG. }
    exists (Errorf "address resolution" (Errorf "getting init actor" ErrActorNotFound)), st'.
    split; reflexivity.
Qed.

(** X13.  A tree from [NewStateTree] holds nothing.  Over a storage layer
    that does not fail, [GetActor] of any address fails on the new tree:
    with the undefined-address error for the undefined address, and for
    every other address, of either form, with an error that matches
    [ErrActorNotFound]. *)
Theorem NewStateTree_holds_nothing cst st addr :
  NewStateTree cst = inr st →
  Forall (λ f, f = None) (faults cst) →
  ∃ e st', GetActor addr st = (inl e, st') ∧
           if decide (addr = address.Undef) then e = ErrUndefinedAddress
           else Is e ErrActorNotFound = true.
Proof.
  intros H Hf. unfold NewStateTree in H.
  destruct (lru.NewLRU _) as [e|c] eqn:Hc; [done|].
  unfold lru.NewLRU in Hc. destruct (decide _); [done|]. injection Hc as <-.
  injection H as <-. by apply GetActor_nothing_held.
Qed.

Lemma NewStateTree_holds_nothing_witness :
  ∃ e st', GetActor bls42 fresh_tree = (inl e, st') ∧
           if decide (bls42 = address.Undef) then e = ErrUndefinedAddress
           else Is e ErrActorNotFound = true.
Proof.
  apply (NewStateTree_holds_nothing empty_store fresh_tree bls42).
  - reflexivity.
  - apply Forall_nil. exact I.
Defined.

(** ** Resolution through the init actor *)

Lemma storage_call_fault_free {A} c (op : StateTree → Result A * StateTree) st :
  fault_free st →
  storage_call c op st =
    ((op (take_fault st).2).1,
     log (c, err_of (op (take_fault st).2).1) (op (take_fault st).2).2).
Proof.
  intros Hf. rewrite storage_call_unfold. by destruct (fault_free_take st Hf) as (-> & _).
Qed.

Lemma Store_Get_fault_free c s st :
  fault_free st → store.get c (stored st) = Some (InitBlock s) →
  Store_Get c st = (inr s, log (StoreGet c, None) (take_fault st).2).
Proof.
  intros Hf Hg. unfold Store_Get. rewrite storage_call_fault_free by done. simpl.
  destruct (take_fault_fields st) as (_ & Hs & _). unfold stored in *.
  by rewrite Hs, Hg.
Qed.

(** [GetActor] of an address in ID form for which the tree holds a
    record: it succeeds, the handle reads as that record, and entries are
    only added to the actor cache. *)
Lemma GetActor_canonical_held a x st :
  address.Protocol a = address.ID →
  canonical_free (idCache st) = true →
  fault_free st →
  held st a = Some x →
  ∃ p st', GetActor a st = (inr p, st') ∧ heap st' !!! p = x ∧
           fault_free st' ∧ stored st' = stored st ∧ idCache st' = idCache st ∧
           actorcache st ⊆ actorcache st'.
Proof.
  intros Hp Hc Hf Hh. rewrite GetActor_canonical by done. unfold held in Hh.
  destruct (actorcache st !! a) as [p|] eqn:Ha.
  - injection Hh as <-. by exists p, (log (IdCacheGet a, None) st).
  - rewrite root_Find_unfold, take_fault_log. simpl.
    destruct (fault_free_take st Hf) as (-> & Hf').
    destruct (take_fault_fields st) as (Hr & Hs & Hac & _ & Hi & _).
    rewrite Hh. eexists _, _. split; [reflexivity|]. simpl.
    split; [apply lookup_total_insert_eq|]. split; [exact Hf'|].
    split; [exact Hs|]. split; [exact Hi|].
    rewrite Hac. by apply insert_subseteq.
Qed.

(** [LookupID] of an address not in ID form that the identifier cache
    does not know, when the tree holds the init actor's record and the
    store holds its table: the answer is the table's. *)
Lemma LookupID_through_init addr a s st :
  address.Protocol addr ≠ address.ID →
  lru.lookup addr (idCache st) = None →
  canonical_free (idCache st) = true →
  fault_free st →
  held st InitAddress = Some a →
  store.get (Head a) (stored st) = Some (InitBlock s) →
  ∃ st', LookupID addr st
         = (match AddressMap s !! address.Bytes addr with
            | Some id => inr (address.NewIDAddress id)
            | None => inl (Errorf "resolving id addr" ErrNotFound)
            end, st') ∧
         actorcache st ⊆ actorcache st' ∧
         (∀ id, AddressMap s !! address.Bytes addr = Some id →
                lru.lookup addr (idCache st') = Some (address.NewIDAddress id)).
Proof.
  intros Hp Hmiss Hc Hf Hh Hg.
  rewrite LookupID_unfold. unfold LookupID_body.
  erewrite bind_inr by apply idCache_Get_eq.
  rewrite Hmiss, (lru_Get_miss _ _ Hmiss). simpl snd. rewrite set_idCache_id.
  rewrite decide_False by done.
  destruct (GetActor_canonical_held InitAddress a (log (IdCacheGet addr, None) st))
    as (p & st1 & HG & Hp1 & Hf1 & Hs1 & Hi1 & Ha1); [done..|].
  erewrite bind_inr by (unfold wrapping; rewrite HG; reflexivity).
  erewrite (bind_inr (load p)) by reflexivity. rewrite Hp1.
  erewrite bind_inr.
  2:{ unfold wrapping. rewrite (Store_Get_fault_free _ s) by (done || by rewrite Hs1).
      reflexivity. }
  destruct (fault_free_take st1 Hf1) as (_ & Hf2).
  destruct (take_fault_fields st1) as (_ & _ & Hac2 & _ & Hi2 & _).
  set (st2 := log (StoreGet (Head a), None) (take_fault st1).2) in *.
  assert (fault_free st2) as Hf2' by exact Hf2.
  destruct (take_fault_fields st2) as (_ & _ & Hac3 & _ & Hi3 & _).
  assert (actorcache st ⊆ actorcache (take_fault st2).2) as Hsub.
  { rewrite Hac3. subst st2. simpl. by rewrite Hac2. }
  unfold bind at 1. unfold wrapping at 1. unfold ias_Lookup.
  rewrite storage_call_fault_free by done. unfold ias.Lookup. simpl.
  destruct (AddressMap s !! address.Bytes addr) as [id|]; simpl.
  - eexists. split; [reflexivity|]. simpl. split; [exact Hsub|].
    intros id' [= <-]. apply lru_lookup_Add.
  - eexists. split; [reflexivity|]. simpl. by split.
Qed.

(** X14.  Resolution agrees with the init actor's table.  For an address
    not in ID form that the identifier cache does not know, over a storage
    layer that does not fail, when the tree holds a record for the init
    actor and the store holds the table its head refers to, [LookupID]
    answers with the ID address the table binds the address to and caches
    that answer; when the table has no binding it fails with a wrapped
    not-found error. *)
Theorem LookupID_agrees_with_table addr a s st :
  address.Protocol addr ≠ address.ID →
  lru.lookup addr (idCache st) = None →
  canonical_free (idCache st) = true →
  fault_free st →
  held st InitAddress = Some a →
  store.get (Head a) (stored st) = Some (InitBlock s) →
  result (LookupID addr) st
  = match AddressMap s !! address.Bytes addr with
    | Some id => inr (address.NewIDAddress id)
    | None => inl (Errorf "resolving id addr" ErrNotFound)
    end ∧
  ∀ id, AddressMap s !! address.Bytes addr = Some id →
        lru.lookup addr (idCache (exec (LookupID addr) st)) = Some (address.NewIDAddress id).
Proof.
  intros Hp Hmiss Hc Hf Hh Hg.
  destruct (LookupID_through_init addr a s st) as (st' & HL & _ & Hi); [done..|].
  unfold result, exec. rewrite HL. done.
Qed.

Lemma LookupID_agrees_with_table_witness :
  result (LookupID bls42) registered_tree
  = match AddressMap registered_table !! address.Bytes bls42 with
    | Some id => inr (address.NewIDAddress id)
    | None => inl (Errorf "resolving id addr" ErrNotFound)
    end ∧
  ∀ id, AddressMap registered_table !! address.Bytes bls42 = Some id →
        lru.lookup bls42 (idCache (exec (LookupID bls42) registered_tree))
        = Some (address.NewIDAddress id).
Proof.
  apply (LookupID_agrees_with_table bls42 (heap registered_tree !!! 0%N)
           registered_table registered_tree).
  - done.
  - reflexivity.
  - reflexivity.
  - apply Forall_nil. exact I.
  - vm_compute. reflexivity.
  - vm_compute. reflexivity.
Defined.

(** What a successful mutation of the init actor by the registration
    closure leaves behind. *)
Lemma MutateActor_registration addr st out st1 :
  canonical_free (idCache st) = true →
  MutateActor InitAddress (RegisterNewAddress_func addr) st = (inr out, st1) →
  idCache st1 = idCache st ∧
  ∃ initact s' id,
    actorcache st1 !! InitAddress = Some initact ∧
    store.get (Head (heap st1 !!! initact)) (stored st1) = Some (InitBlock s') ∧
    AddressMap s' !! address.Bytes addr = Some id ∧ out = address.NewIDAddress id.
Proof.
  intros Hcan HM. unfold MutateActor in HM.
  apply bind_inr_inv in HM as (initact & sta & HG & HM).
  apply bind_inr_inv in HM as (out' & stb & Hf & HM).
  apply bind_inr_inv in HM as ([] & stc & HSI & HM). injection HM as -> ->.
  apply GetActor_inr_inv in HG as (_ & iaddr & st0 & HL & Hca & Hia).
  rewrite (LookupID_miss_ID InitAddress st) in HL
    by (by try apply canonical_free_lookup).
  injection HL as <- <-. simpl in Hia.
  apply RegisterNewAddress_func_inr_inv in Hf as (Hab & Hib & s' & id & -> & Hs' & Hget).
  apply SetActor_inr_inv in HSI as (iaddr & stb' & HL & Hi1 & Hh1 & Hs1 & _ & HSI).
  rewrite (LookupID_miss_ID InitAddress stb) in HL
    by (try apply canonical_free_lookup; (done || congruence)).
  injection HL as <- <-. simpl in *.
  rewrite decide_True in HSI by congruence. subst st1. simpl.
  split; [congruence|]. exists initact, s', id.
  split; [congruence|]. by split.
Qed.

(** X15.  Register, then get by the registered address.  After a
    successful [RegisterNewAddress] of an address that is neither
    undefined nor in ID form (and that the identifier cache did not
    already answer for), over a storage layer that does not fail,
    [LookupID] of that address gives the ID address the registration
    returned, and [GetActor] of it gives the handle that was registered. *)
Theorem RegisterNewAddress_then_GetActor addr act st out st' :
  addr ≠ address.Undef →
  address.Protocol addr ≠ address.ID →
  lru.lookup addr (idCache st) = None →
  canonical_free (idCache st) = true →
  RegisterNewAddress addr act st = (inr out, st') →
  out ≠ InitAddress →
  fault_free st' →
  ∃ st'', LookupID addr st' = (inr out, st'') ∧ GetActor addr st' = (inr act, st'').
Proof.
  intros Hu Hp Hmiss Hcan H Hne Hf. unfold RegisterNewAddress in H.
  apply bind_inr_inv in H as (out0 & st1 & HM & H).
  apply bind_inr_inv in H as ([] & st2 & HS & H). injection H as -> ->.
  apply MutateActor_registration in HM as (Hi1 & initact & s' & id & Hc1 & Hg1 & Hs' & ->);
    [|done].
  apply SetActor_inr_inv in HS as (iaddr & st1' & HL & Hi2 & Hh2 & Hs2 & _ & HS).
  rewrite (LookupID_miss_ID (address.NewIDAddress id) st1) in HL
    by (try apply canonical_free_lookup; (done || congruence)).
  injection HL as <- <-. simpl in *.
  assert (actorcache st' !! address.NewIDAddress id = Some act ∧
          actorcache st' !! InitAddress = Some initact) as [Hact Hinit].
  { destruct (decide _) as [Hd|Hd].
    - subst st'. simpl. by split.
    - destruct HS as (-> & _). rewrite lookup_insert_eq, lookup_insert_ne by done. by split. }
  destruct (LookupID_through_init addr (heap st' !!! initact) s' st')
    as (st'' & HL & Hsub & _).
  - done.
  - congruence.
  - congruence.
  - done.
  - unfold held. by rewrite Hinit.
  - unfold stored in *. by rewrite Hh2, Hs2.
  - rewrite Hs' in HL. exists st''. split; [done|].
    apply (GetActor_cached _ (address.NewIDAddress id)); [done|done|].
    by eapply lookup_weaken.
Qed.

Lemma RegisterNewAddress_then_GetActor_witness :
  ∃ st'', LookupID bls42 registered_tree = (inr id100, st'') ∧
          GetActor bls42 registered_tree = (inr 2%N, st'').
Proof.
  apply (RegisterNewAddress_then_GetActor bls42 2%N genesis_plus id100 registered_tree).
  - done.
  - done.
  - reflexivity.
  - reflexivity.
  - vm_compute. reflexivity.
  - done.
  - apply Forall_nil. exact I.
Defined.

(** ** The invariants of the caches *)

Lemma answers_canonical_lookup c key v :
  answers_canonical c = true → lru.lookup key c = Some v →
  address.Protocol v = address.ID.
Proof.
  induction c as [|[k w] c IH]; simpl; [done|].
  intros [Hk Hc]%andb_prop. destruct (decide (key = k)).
  - intros [= <-]. by apply bool_decide_eq_true in Hk.
  - by apply IH.
Qed.

Lemma answers_canonical_remove key c :
  answers_canonical c = true → answers_canonical (lru.remove key c) = true.
Proof.
  induction c as [|[k v] c IH]; simpl; [done|].
  intros [Hk Hc]%andb_prop. destruct (decide (key = k)); simpl; [by apply IH|].
  by rewrite Hk, IH.
Qed.

Lemma answers_canonical_take n c :
  answers_canonical c = true → answers_canonical (take n c) = true.
Proof.
  revert n. induction c as [|kv c IH]; intros [|n]; simpl; try done.
  intros [Hk Hc]%andb_prop. by rewrite Hk, IH.
Qed.

Lemma answers_canonical_Get key c :
  answers_canonical c = true → answers_canonical (lru.Get key c).2 = true.
Proof.
  intros Hc. unfold lru.Get. destruct (lru.lookup key c) eqn:E; simpl; [|done].
  rewrite answers_canonical_remove by done. rewrite andb_true_r.
  apply bool_decide_eq_true. by eapply answers_canonical_lookup.
Qed.

Lemma answers_canonical_Add n key v c :
  address.Protocol v = address.ID →
  answers_canonical c = true → answers_canonical (lru.Add n key v c) = true.
Proof.
  intros Hp Hc. unfold lru.Add.
  assert (answers_canonical ((key, v) :: c) = true) as Hkc.
  { simpl. by rewrite bool_decide_eq_true_2. }
  destruct (lru.lookup key c).
  - simpl. rewrite bool_decide_eq_true_2 by done. by apply answers_canonical_remove.
  - by apply answers_canonical_take.
Qed.

(** The invariants only look at the two caches and at which records are
    allocated. *)
Lemma well_formed_fields st st' :
  idCache st' = idCache st → actorcache st' ⊆ actorcache st →
  dom (heap st) ⊆ dom (heap st') →
  well_formed st → well_formed st'.
Proof.
  intros Hi Ha Hh (H1 & H2 & H3 & H4). unfold well_formed. rewrite Hi.
  split; [done|]. split; [done|]. split.
  - intros a p Hp. eapply H3. by eapply lookup_weaken.
  - intros a p Hp. apply Hh. eapply H4. by eapply lookup_weaken.
Qed.

Lemma wf_kept_fields st st' :
  idCache st' = idCache st → actorcache st' ⊆ actorcache st →
  dom (heap st) ⊆ dom (heap st') →
  wf_kept st st'.
Proof. intros Hi Ha Hh Hwf. split; [by eapply well_formed_fields|done]. Qed.

#[global] Instance wf_kept_frame : Frame wf_kept.
Proof.
  split.
  - intros st. by apply wf_kept_fields.
  - intros st1 st2 st3 H12 H23 H1. destruct (H12 H1) as (H2 & D12).
    destruct (H23 H2) as (H3 & D23). split; [done|]. by etrans.
  - intros ev st. by apply wf_kept_fields.
  - intros st. destruct (take_fault_fields st) as (_ & _ & Ha & _ & Hi & Hh & _).
    apply wf_kept_fields; [done|by rewrite Ha|by rewrite Hh].
Qed.
#[global] Instance wf_kept_purge : FramePurge wf_kept.
Proof.
  intros st (H1 & H2 & H3 & H4). split; [|done]. by repeat split.
Qed.
#[global] Instance wf_kept_root : FrameRoot wf_kept.
Proof. intros n st. by apply wf_kept_fields. Qed.
#[global] Instance wf_kept_blocks : FrameBlocks wf_kept.
Proof. intros b st. by apply wf_kept_fields. Qed.
#[global] Instance wf_kept_snapshot : FrameSnapshot wf_kept.
Proof. intros c st. by apply wf_kept_fields. Qed.

Lemma wf_kept_idCache_Get addr : preserves wf_kept (idCache_Get addr).
Proof.
  intros st r st'. rewrite idCache_Get_eq. intros [= _ <-] (H1 & H2 & H3 & H4).
  split; [|done]. split; [by apply canonical_free_Get|].
  split; [by apply answers_canonical_Get|]. done.
Qed.

Lemma wf_kept_idCache_Add addr id :
  address.Protocol addr ≠ address.ID → address.Protocol id = address.ID →
  preserves wf_kept (idCache_Add addr id).
Proof.
  intros Ha Hid st r st' [= _ <-] (H1 & H2 & H3 & H4).
  split; [|done]. split; [by apply canonical_free_Add|].
  split; [by apply answers_canonical_Add|]. done.
Qed.

Lemma wf_kept_new_Actor a : preserves wf_kept (new_Actor a).
Proof.
  intros st r st' [= _ <-]. apply wf_kept_fields; [done|done|].
  simpl. rewrite dom_insert_L. set_solver.
Qed.

Lemma wf_kept_store_Actor p a : preserves wf_kept (store_Actor p a).
Proof.
  intros st r st' [= _ <-]. apply wf_kept_fields; [done|done|].
  simpl. rewrite dom_insert_L. set_solver.
Qed.

Lemma ias_Lookup_inr_inv s addr st id st' :
  ias_Lookup s addr st = (inr id, st') → address.Protocol id = address.ID.
Proof.
  intros (st2 & H & _)%storage_call_inr_inv. unfold ias.Lookup in H.
  destruct (AddressMap s !! address.Bytes addr); [|done]. by injection H as <-.
Qed.

(** The last two steps of a resolution: the table lookup, whose answer is
    an ID address, and the insertion of that answer in the cache. *)
Lemma wf_kept_lookup_and_cache addr :
  address.Protocol addr ≠ address.ID →
  ∀ s, preserves wf_kept (do id <- wrapping "resolving id addr" (ias_Lookup s addr) ;;
                          do _ <- idCache_Add addr id ;;
                          ret id).
Proof.
  intros Hp s st r st' H.
  apply bind_inv in H as [(id & st1 & H1 & H)|(e & H1 & ->)].
  - apply wrapping_inr_inv in H1.
    pose proof (ias_Lookup_inr_inv _ _ _ _ _ H1) as Hid.
    etrans; [exact (preserves_ias_Lookup wf_kept _ _ _ _ _ H1)|].
    revert H. fapply preserves_bind; [by apply wf_kept_idCache_Add|].
    intros _. fapply preserves_ret.
  - revert H1. fapply preserves_wrapping. fapply preserves_ias_Lookup.
Qed.

Lemma wf_kept_LookupID_body G addr :
  preserves wf_kept (G InitAddress) → preserves wf_kept (LookupID_body G addr).
Proof.
  intros HG. unfold LookupID_body.
  fapply preserves_bind; [apply wf_kept_idCache_Get|].
  intros [id|]; [fapply preserves_ret|].
  fapply preserves_decide; intros Hp; [fapply preserves_ret|].
  pose proof (wf_kept_lookup_and_cache addr Hp).
  frame.
Qed.

Lemma LookupID_body_answer G addr st id st' :
  well_formed st → LookupID_body G addr st = (inr id, st') →
  address.Protocol id = address.ID.
Proof.
  intros (_ & Hans & _) H. unfold LookupID_body in H.
  apply bind_inr_inv in H as (hit & st0 & H0 & H).
  rewrite idCache_Get_eq in H0. injection H0 as <- <-.
  destruct (lru.lookup addr (idCache st)) as [id'|] eqn:E.
  - injection H as <- <-. by eapply answers_canonical_lookup.
  - destruct (decide _) as [Hp|Hp]; [by injection H as <- <-|].
    apply bind_inr_inv in H as (act & st1 & _ & H).
    apply bind_inr_inv in H as (a & st2 & _ & H).
    apply bind_inr_inv in H as (s & st3 & _ & H).
    apply bind_inr_inv in H as (id' & st4 & H4 & H).
    apply bind_inr_inv in H as ([] & st5 & _ & H). injection H as <- <-.
    apply wrapping_inr_inv in H4. by eapply ias_Lookup_inr_inv.
Qed.

Lemma wf_kept_GetActor_body L addr :
  preserves wf_kept (L addr) →
  (∀ st id st', well_formed st → L addr st = (inr id, st') →
                address.Protocol id = address.ID) →
  preserves wf_kept (GetActor_body L addr).
Proof.
  intros HL Hid st r st'. rewrite GetActor_body_unfold.
  destruct (decide _); [intros [= <- <-]; reflexivity|].
  destruct (L addr st) as [[err|iaddr] st1] eqn:E; [intros [= <- <-]; by eapply HL|].
  destruct (actorcache st1 !! iaddr) as [cact|] eqn:Hc; [intros [= <- <-]; by eapply HL|].
  pose proof (preserves_root_Find wf_kept (address.Bytes iaddr) st1) as HF.
  destruct (root_Find _ st1) as [[e|x] st2] eqn:EF.
  { intros [= <- <-]. etrans; [by eapply HL|by eapply HF]. }
  intros [= <- <-] Hwf.
  destruct (HL _ _ _ E Hwf) as (Hwf1 & Hd1).
  destruct (HF _ _ eq_refl Hwf1) as ((H1 & H2 & H3 & H4) & Hd2).
  specialize (Hid _ _ _ Hwf E).
  split.
  - split; [done|]. split; [done|]. split.
    + intros a p. simpl. destruct (decide (iaddr = a)) as [<-|Hne]; [done|].
      rewrite lookup_insert_ne by done. apply H3.
    + intros a p. simpl. rewrite dom_insert_L.
      destruct (decide (iaddr = a)) as [<-|Hne].
      * rewrite lookup_insert_eq. intros [= <-]. set_solver.
      * rewrite lookup_insert_ne by done. intros Hp. apply H4 in Hp. set_solver.
  - simpl. rewrite dom_insert_L. set_solver.
Qed.

Lemma wf_LookupID_depth n :
  (∀ addr, preserves wf_kept (LookupID_depth n addr)) ∧
  (∀ addr st id st', well_formed st → LookupID_depth n addr st = (inr id, st') →
                     address.Protocol id = address.ID).
Proof.
  induction n as [|n [IH1 IH2]]; simpl.
  - split; [intros addr; fapply preserves_fail|done].
  - split.
    + intros addr. apply wf_kept_LookupID_body, wf_kept_GetActor_body; [apply IH1|apply IH2].
    + intros addr st id st'. apply LookupID_body_answer.
Qed.

Lemma wf_kept_LookupID addr : preserves wf_kept (LookupID addr).
Proof. apply (wf_LookupID_depth 2). Qed.

Lemma LookupID_answer addr st id st' :
  well_formed st → LookupID addr st = (inr id, st') → address.Protocol id = address.ID.
Proof. apply (wf_LookupID_depth 2). Qed.

Lemma wf_kept_GetActor addr : preserves wf_kept (GetActor addr).
Proof. apply wf_kept_GetActor_body; [apply wf_kept_LookupID|apply LookupID_answer]. Qed.

Lemma wf_SetActor addr act st r st' :
  well_formed st → act ∈ dom (heap st) → SetActor addr act st = (r, st') →
  well_formed st' ∧ dom (heap st) ⊆ dom (heap st').
Proof.
  intros Hwf Hact. rewrite SetActor_unfold.
  destruct (LookupID addr st) as [[err|iaddr] st1] eqn:HL;
    destruct (wf_kept_LookupID _ _ _ _ HL Hwf) as (Hwf1 & Hd1).
  { by intros [= <- <-]. }
  pose proof (LookupID_answer _ _ _ _ Hwf HL) as Hid.
  destruct (decide _); [by intros [= <- <-]|].
  intros H. apply (preserves_root_Set wf_kept) in H.
  destruct H as (Hwf2 & Hd2).
  - destruct Hwf1 as (H1 & H2 & H3 & H4). split; [done|]. split; [done|]. split.
    + intros a p. simpl. destruct (decide (iaddr = a)) as [<-|Hne]; [done|].
      rewrite lookup_insert_ne by done. apply H3.
    + intros a p. simpl. destruct (decide (iaddr = a)) as [<-|Hne].
      * rewrite lookup_insert_eq. intros [= <-]. by apply Hd1.
      * rewrite lookup_insert_ne by done. apply H4.
  - split; [done|]. etrans; [exact Hd1|exact Hd2].
Qed.

Lemma wf_kept_Flush_range order : preserves wf_kept (Flush_range order).
Proof.
  intros st r st' H. apply Flush_range_cases in H as (Hi & _ & Hh & H).
  apply wf_kept_fields; [done| |by rewrite Hh].
  destruct r as [e|c].
  - destruct H as (_ & [(k & tl & _ & ->)|(c & tl & _ & _ & -> & _)]);
      [done|apply map_empty_subseteq].
  - destruct H as (_ & -> & _). apply map_empty_subseteq.
Qed.

Lemma wf_kept_Snapshot_range order : preserves wf_kept (Snapshot_range order).
Proof.
  unfold Snapshot_range. fapply preserves_bind; [apply wf_kept_Flush_range|].
  intros c. fapply preserves_set_snapshot.
Qed.

Lemma wf_kept_MutateActor {A} addr (f : loc → M A) :
  heap_only f → preserves wf_kept (MutateActor addr f).
Proof.
  intros Hf st r st' H Hwf. unfold MutateActor in H.
  apply bind_inv in H as [(act & st1 & HG & H)|(e & HG & ->)];
    destruct (wf_kept_GetActor _ _ _ _ HG Hwf) as (Hwf1 & Hd1); [|done].
  apply GetActor_inr_inv in HG as (_ & iaddr & st0 & _ & Hc & _).
  assert (act ∈ dom (heap st1)) as Hact by (by eapply Hwf1).
  assert (∀ r2 st2, f act st1 = (r2, st2) →
                    well_formed st2 ∧ dom (heap st1) ⊆ dom (heap st2)) as Hf'.
  { intros r2 st2 Hx. destruct (Hf _ _ _ _ Hx) as (Hi2 & Ha2 & Hd2).
    split; [|done]. apply (well_formed_fields st1); [done|by rewrite Ha2|done|done]. }
  apply bind_inv in H as [(x & st2 & Hx & H)|(e & Hx & ->)];
    destruct (Hf' _ _ Hx) as (Hwf2 & Hd2).
  2:{ split; [done|]. by etrans. }
  assert (∀ r3 st3, SetActor addr act st2 = (r3, st3) →
                    well_formed st3 ∧ dom (heap st) ⊆ dom (heap st3)) as HS.
  { intros r3 st3 H3. apply wf_SetActor in H3 as (Hwf3 & Hd3); [|done|by apply Hd2].
    split; [done|]. etrans; [exact Hd1|]. by etrans. }
  apply bind_inv in H as [([] & st3 & H3 & H)|(e & H3 & ->)]; [|by eapply HS].
  injection H as <- <-. by eapply HS.
Qed.

#[global] Instance heap_grows_frame : Frame heap_grows.
Proof.
  split; unfold heap_grows.
  - by intros st.
  - intros st1 st2 st3 H12 H23. by etrans.
  - by intros ev st.
  - intros st. by destruct (take_fault_fields st) as (_ & _ & _ & _ & _ & -> & _).
Qed.
#[global] Instance heap_grows_blocks : FrameBlocks heap_grows.
Proof. intros b st. unfold heap_grows. done. Qed.

Lemma heap_grows_store_Actor p : ∀ a, preserves heap_grows (store_Actor p a).
Proof.
  intros a st r st' [= _ <-]. unfold heap_grows. simpl. rewrite dom_insert_L. set_solver.
Qed.

Lemma heap_only_RegisterNewAddress_func addr : heap_only (RegisterNewAddress_func addr).
Proof.
  intros p st r st' H.
  assert (preserves (rel_and (keeps actorcache) (keeps idCache))
            (RegisterNewAddress_func addr p)) as Hk.
  { unfold RegisterNewAddress_func. frame. }
  assert (preserves heap_grows (RegisterNewAddress_func addr p)) as Hg.
  { unfold RegisterNewAddress_func. pose proof (heap_grows_store_Actor p). frame. }
  destruct (Hk _ _ _ H) as [Ha Hi]. split; [done|]. split; [done|]. by eapply Hg.
Qed.

Lemma wf_RegisterNewAddress addr act st r st' :
  well_formed st → act ∈ dom (heap st) → RegisterNewAddress addr act st = (r, st') →
  well_formed st'.
Proof.
  intros Hwf Hact H. unfold RegisterNewAddress in H.
  apply bind_inv in H as [(out & st1 & HM & H)|(e & HM & ->)];
    destruct (wf_kept_MutateActor _ _ (heap_only_RegisterNewAddress_func addr) _ _ _ HM Hwf)
      as (Hwf1 & Hd1); [|done].
  apply bind_inv in H as [([] & st2 & HS & H)|(e & HS & ->)].
  - injection H as <- <-. apply wf_SetActor in HS as (Hwf2 & _); [done|done|by apply Hd1].
  - apply wf_SetActor in HS as (Hwf2 & _); [done|done|by apply Hd1].
Qed.

(** X16.  The invariants of the caches.  In every tree a client can
    reach, the identifier cache maps addresses not in ID form to addresses
    in ID form, the actor cache is keyed by addresses in ID form, and every
    handle in it is allocated; hence every address [LookupID] returns is
    in ID form. *)
Theorem reachable_well_formed st :
  reachable st →
  well_formed st ∧
  ∀ addr id st', LookupID addr st = (inr id, st') → address.Protocol id = address.ID.
Proof.
  intros Hr. assert (well_formed st) as Hwf; [|split; [done|]; intros addr id st';
                                               by apply LookupID_answer].
  induction Hr as [cst st H|cst c st H|a st _ IH|p a st _ IH|addr st r st' _ IH H
                  |addr st r st' _ IH H|addr act st r st' _ IH Hact H
                  |order st r st' _ IH H|order st r st' _ IH H|st r st' _ IH H
                  |A addr f st r st' _ IH Hf H|addr act st r st' _ IH Hact H].
  - rewrite NewStateTree_succeeds in H. injection H as <-. by repeat split.
  - unfold LoadStateTree in H.
    destruct (hamt_LoadNode c _) as [[e|nd] st1] eqn:E; [done|].
    simpl in H. injection H as <-.
    pose proof (preserves_hamt_LoadNode (rel_and (keeps actorcache) (keeps heap)) _ _ _ _ E)
      as [Ha Hh].
    split; [done|]. split; [done|]. split.
    + intros a p. simpl. rewrite Ha. simpl. by rewrite lookup_empty.
    + intros a p. simpl. rewrite Ha. simpl. by rewrite lookup_empty.
  - by eapply (wf_kept_new_Actor a st).
  - by eapply (wf_kept_store_Actor p a st).
  - by eapply wf_kept_LookupID.
  - by eapply wf_kept_GetActor.
  - by eapply wf_SetActor.
  - by eapply wf_kept_Flush_range.
  - by eapply wf_kept_Snapshot_range.
  - by eapply (preserves_Revert wf_kept).
  - by eapply wf_kept_MutateActor.
  - by eapply wf_RegisterNewAddress.
Qed.

Lemma reachable_well_formed_witness :
  well_formed one_account ∧
  ∀ addr id st', LookupID addr one_account = (inr id, st') →
                 address.Protocol id = address.ID.
Proof.
  apply (reachable_well_formed one_account).
  apply (reach_SetActor id7 0%N (exec (new_Actor (account 0)) fresh_tree) (inr tt)).
  - apply reach_new_Actor. by apply (reach_NewStateTree empty_store).
  - vm_compute. reflexivity.
  - vm_compute. reflexivity.
Defined.

(** ** The order of the write loop *)

(** The trie a complete write loop leaves is determined by the cache, the
    heap and the trie it started from. *)
Lemma all_written_unique st r1 r2 :
  all_written st r1 → all_written st r2 → r1 = r2.
Proof.
  intros [He1 Ho1] [He2 Ho2]. apply map_eq. intros k.
  destruct (decide (k ∈ (λ e, address.Bytes e.1) <$> map_to_list (actorcache st)))
    as [Hin|Hout].
  - apply list_elem_of_fmap in Hin as ([a p] & -> & Hin).
    apply elem_of_map_to_list in Hin. simpl.
    by rewrite (He1 _ _ Hin), (He2 _ _ Hin).
  - assert (∀ a, is_Some (actorcache st !! a) → address.Bytes a ≠ k) as Hk.
    { intros a [p Hp] <-. apply Hout. apply list_elem_of_fmap. exists (a, p).
      split; [done|]. by apply elem_of_map_to_list. }
    by rewrite (Ho1 _ Hk), (Ho2 _ Hk).
Qed.

(** X17.  A successful flush does not depend on the order in which the
    actor cache is ranged over.  Whatever two orders Go's map iteration
    yields the cache entries in, if the flush succeeds in both it returns
    the same reference and leaves the same trie and the same store. *)
Theorem Flush_range_order_independent order1 order2 st c1 st1 c2 st2 :
  order1 ≡ₚ map_to_list (actorcache st) →
  order2 ≡ₚ map_to_list (actorcache st) →
  Flush_range order1 st = (inr c1, st1) →
  Flush_range order2 st = (inr c2, st2) →
  c1 = c2 ∧ root st1 = root st2 ∧ stored st1 = stored st2.
Proof.
  intros Hp1 Hp2 H1 H2.
  apply Flush_range_cases in H1 as (_ & _ & _ & Hr1 & _ & Hput1).
  apply Flush_range_cases in H2 as (_ & _ & _ & Hr2 & _ & Hput2).
  assert (root st1 = root st2) as Hr.
  { rewrite Hr1, Hr2. apply (all_written_unique st); by apply write_over_all_written. }
  rewrite Hr in Hput1. rewrite Hput1 in Hput2. by injection Hput2 as -> ->.
Qed.

Lemma Flush_range_order_independent_witness :
  cid.At 1 = cid.At 1 ∧
  root flushed_tree
  = root (exec (Flush_range (reverse (map_to_list (actorcache genesis_tree)))) genesis_tree) ∧
  stored flushed_tree
  = stored (exec (Flush_range (reverse (map_to_list (actorcache genesis_tree)))) genesis_tree).
Proof.
  apply (Flush_range_order_independent
           (map_to_list (actorcache genesis_tree))
           (reverse (map_to_list (actorcache genesis_tree)))
           genesis_tree (cid.At 1) flushed_tree (cid.At 1)
           (exec (Flush_range (reverse (map_to_list (actorcache genesis_tree)))) genesis_tree)).
  - reflexivity.
  - apply reverse_Permutation.
  - vm_compute. reflexivity.
  - vm_compute. reflexivity.
Defined.
